(** * gosl/fun: the low-level fast Fourier transform [FourierTransLL]

    A shallow embedding of [fun/fourier.go] and the verification of its
    specification.

    - Go's [int] is a 64-bit two's-complement integer: it is modelled as [Z],
      every arithmetic operation wrapping explicitly ([int_wrap]).
    - The slice [data []float64] is modelled as a [list] that is passed in and
      returned (the Go code mutates it in place); an access out of range is a
      run-time panic ([Panic]).
    - [float64] arithmetic is kept abstract in the class [Float64]: the code
      is written once, over the operations that the Go source uses.  Two
      instances are given: [binary64], IEEE-754 double precision, on the
      primitive floats of Rocq, with [math.Sin] as a parameter, and [ideal],
      the exact arithmetic of the real numbers, in which the algebraic laws
      of the transform are stated.
    - Loops are run by a fuel-bounded [while]; a loop that is not finished
      when the fuel is spent yields [OutOfFuel].

    The file has three parts: the source, the vocabulary in which its
    behaviour is stated (loop runs, bit reversal, the stages, complex
    numbers and the discrete Fourier transform), and the verification. *)

From Stdlib Require Import ZArith Lia List Reals Lra Permutation.
From Stdlib Require Import PrimFloat Uint63.
From Stdlib Require SpecFloat FloatOps FloatAxioms.
From stdpp Require Import base list.

Local Open Scope Z_scope.

(** ** Go's [int] *)

Module GoInt.

Definition int_min : Z := - 2 ^ 63.
Definition int_max : Z := 2 ^ 63 - 1.

(** the 64-bit two's-complement value of an integer *)
Definition int_wrap (z : Z) : Z := (z + 2 ^ 63) mod 2 ^ 64 - 2 ^ 63.

Definition int_add (a b : Z) : Z := int_wrap (a + b).
Definition int_sub (a b : Z) : Z := int_wrap (a - b).
(** [a << k] *)
Definition int_shl (a k : Z) : Z := int_wrap (Z.shiftl a k).
(** [a >> k], the arithmetic shift *)
Definition int_shr (a k : Z) : Z := Z.shiftr a k.
(** [a & b] *)
Definition int_and (a b : Z) : Z := Z.land a b.
(** [a / b] and [a % b] truncate towards zero *)
Definition int_quot (a b : Z) : Z := int_wrap (Z.quot a b).
Definition int_rem (a b : Z) : Z := Z.rem a b.

Definition in_int (z : Z) : Prop := int_min <= z <= int_max.

End GoInt.
Export GoInt.

(** ** Outcomes of a run *)

Inductive outcome (A : Type) : Type :=
| Ok (a : A)
| Panic       (* run-time panic: index out of range *)
| OutOfFuel.  (* the fuel of the model ran out before the loop ended *)
Arguments Ok {A} a.
Arguments Panic {A}.
Arguments OutOfFuel {A}.

#[export] Instance outcome_ret : MRet outcome := λ A a, Ok a.
#[export] Instance outcome_bind : MBind outcome := λ A B f c,
  match c with
  | Ok a => f a
  | Panic => Panic
  | OutOfFuel => OutOfFuel
  end.

(** [for cond { body }] *)
Fixpoint while {St : Type} (fuel : nat) (cond : St → bool)
    (body : St → outcome St) (s : St) : outcome St :=
  match fuel with
  | O => OutOfFuel
  | S fuel' => if cond s then s' ← body s; while fuel' cond body s' else Ok s
  end.

(** [k] runs of a loop body, one after the other *)
Fixpoint repeat_body {St : Type} (k : nat) (body : St → outcome St) (s : St)
    : outcome St :=
  match k with
  | O => Ok s
  | S k' => s' ← body s; repeat_body k' body s'
  end.

(** ** [float64] *)

Class Float64 (F : Type) : Type := {
  fadd : F → F → F;
  fsub : F → F → F;
  fmul : F → F → F;
  fdiv : F → F → F;
  float64 : Z → F;     (* the conversion [float64(k)], and the literals 1.0, 2.0, ... *)
  fhalf : F;           (* the literal 0.5 *)
  math_Pi : F;         (* [math.Pi] *)
  math_Sin : F → F     (* [math.Sin] *)
}.

Declare Scope f64_scope.
Delimit Scope f64_scope with f64.
Infix "+" := fadd : f64_scope.
Infix "-" := fsub : f64_scope.
Infix "*" := fmul : f64_scope.
Infix "/" := fdiv : f64_scope.

(** exact real arithmetic *)
#[export] Instance ideal : Float64 R := {|
  fadd := Rplus; fsub := Rminus; fmul := Rmult; fdiv := Rdiv;
  float64 := IZR; fhalf := (1 / 2)%R; math_Pi := PI; math_Sin := sin
|}.

(** IEEE-754 binary64; [math.Sin] is a library routine that is not part of
    the package: it is a parameter of the instance. *)
Definition float_of_int (z : Z) : float :=
  if z =? int_min then PrimFloat.opp 0x1p+63%float
  else if z <? 0 then PrimFloat.opp (PrimFloat.of_uint63 (Uint63.of_Z (- z)))
  else PrimFloat.of_uint63 (Uint63.of_Z z).

Definition binary64 (Sin : float → float) : Float64 float := {|
  fadd := PrimFloat.add; fsub := PrimFloat.sub;
  fmul := PrimFloat.mul; fdiv := PrimFloat.div;
  float64 := float_of_int; fhalf := 0.5%float;
  math_Pi := 0x1.921fb54442d18p+1%float; math_Sin := Sin
|}.

(** ** The source: [fun/fourier.go] *)

Inductive error : Type :=
| InvalidLength (ldata : Z)   (* "len(data)=2*n must be greater than 4 and must be even" *)
| NotPowerOfTwo (n : Z).      (* "n=len(data)/2 must be power of 2" *)

(** [IsPowerOfTwo] checks if n is power of 2 *)
Definition IsPowerOfTwo (n : Z) : bool :=
  if n <? 1 then false
  else int_and n (int_sub n 1) =? 0.

Section Source.
Context {F : Type} `{Float64 F}.

(** [len(data)] *)
Definition len (data : list F) : Z := Z.of_nat (length data).

(** [data[i]] as a value *)
Definition index (data : list F) (i : Z) : outcome F :=
  if (i <? 0) || (len data <=? i) then Panic
  else match data !! Z.to_nat i with
       | Some x => Ok x
       | None => Panic
       end.

(** [data[i] = x] *)
Definition store (data : list F) (i : Z) (x : F) : outcome (list F) :=
  if (i <? 0) || (len data <=? i) then Panic
  else Ok (<[Z.to_nat i := x]> data).

(** [Swap(&data[a], &data[b])]: [*a, *b = *b, *a] *)
Definition Swap (data : list F) (a b : Z) : outcome (list F) :=
  x ← index data a;
  y ← index data b;
  data ← store data a y;
  store data b x.

(** *** the bit-reversal section *)

(** [for m >= 2 && j > m { j -= m; m >>= 1 }], on the state [(j, m)] *)
Definition carry_cond (s : Z * Z) : bool :=
  let '(j, m) := s in (2 <=? m) && (m <? j).
Definition carry_body (s : Z * Z) : outcome (Z * Z) :=
  let '(j, m) := s in Ok (int_sub j m, int_shr m 1).

(** [for i := 1; i < nn; i += 2 { ... }], on the state [(data, j, i)] *)
Definition bitrev_cond (nn : Z) (s : list F * Z * Z) : bool :=
  let '(_, _, i) := s in i <? nn.
Definition bitrev_body (fuel : nat) (n : Z) (s : list F * Z * Z)
    : outcome (list F * Z * Z) :=
  let '(data, j, i) := s in
  data ← (if i <? j then
            data ← Swap data (int_sub j 1) (int_sub i 1);
            Swap data j i
          else Ok data);
  '(j, m) ← while fuel carry_cond carry_body (j, n);
  Ok (data, int_add j m, int_add i 2).

Definition bit_reversal (fuel : nat) (n nn : Z) (data : list F)
    : outcome (list F) :=
  '(data, _, _) ← while fuel (bitrev_cond nn) (bitrev_body fuel n) (data, 1, 1);
  Ok data.

(** *** the Danielson-Lanczos section *)

(** [isign]: -1.0 for the direct transform, 1.0 for the inverse one *)
Definition isign (inverse : bool) : F :=
  if inverse then float64 1 else float64 (-1).

(** [for i := m; i <= nn; i += istep { ... }], on the state [(data, i)] *)
Definition inner_cond (nn : Z) (s : list F * Z) : bool :=
  let '(_, i) := s in i <=? nn.
Definition inner_body (mmax istep : Z) (wr wi : F) (s : list F * Z)
    : outcome (list F * Z) :=
  let '(data, i) := s in
  let j := int_add i mmax in
  dj1 ← index data (int_sub j 1);
  dj ← index data j;
  let tempr := (wr * dj1 - wi * dj)%f64 in
  dj ← index data j;
  dj1 ← index data (int_sub j 1);
  let tempi := (wr * dj + wi * dj1)%f64 in
  di1 ← index data (int_sub i 1);
  data ← store data (int_sub j 1) (di1 - tempr)%f64;
  di ← index data i;
  data ← store data j (di - tempi)%f64;
  di1 ← index data (int_sub i 1);
  data ← store data (int_sub i 1) (di1 + tempr)%f64;
  di ← index data i;
  data ← store data i (di + tempi)%f64;
  Ok (data, int_add i istep).

(** [for m = 1; m < mmax; m += 2 { ... }], on the state [(data, m, wr, wi)] *)
Definition middle_cond (mmax : Z) (s : list F * Z * F * F) : bool :=
  let '(_, m, _, _) := s in m <? mmax.
Definition middle_body (fuel : nat) (nn mmax istep : Z) (wpr wpi : F)
    (s : list F * Z * F * F) : outcome (list F * Z * F * F) :=
  let '(data, m, wr, wi) := s in
  '(data, _) ← while fuel (inner_cond nn) (inner_body mmax istep wr wi) (data, m);
  let wtemp := wr in
  let wr' := (wr * wpr - wi * wpi + wr)%f64 in
  let wi' := (wi * wpr + wtemp * wpi + wi)%f64 in
  Ok (data, int_add m 2, wr', wi').

(** the trigonometric recurrence of a stage is started from [theta] *)
Definition theta (inverse : bool) (mmax : Z) : F :=
  (isign inverse * (float64 2 * math_Pi / float64 mmax))%f64.
Definition wpr (inverse : bool) (mmax : Z) : F :=
  let wtemp := math_Sin (fhalf * theta inverse mmax)%f64 in
  (float64 (-2) * wtemp * wtemp)%f64.
Definition wpi (inverse : bool) (mmax : Z) : F :=
  math_Sin (theta inverse mmax).

(** [for nn > mmax { ... }], on the state [(data, mmax)] *)
Definition outer_cond (nn : Z) (s : list F * Z) : bool :=
  let '(_, mmax) := s in mmax <? nn.
Definition outer_body (fuel : nat) (inverse : bool) (nn : Z) (s : list F * Z)
    : outcome (list F * Z) :=
  let '(data, mmax) := s in
  let istep := int_shl mmax 1 in
  '(data, _, _, _) ←
    while fuel (middle_cond mmax)
      (middle_body fuel nn mmax istep (wpr inverse mmax) (wpi inverse mmax))
      (data, 1, float64 1, float64 0);
  Ok (data, istep).

Definition danielson_lanczos (fuel : nat) (inverse : bool) (nn : Z)
    (data : list F) : outcome (list F) :=
  '(data, _) ← while fuel (outer_cond nn) (outer_body fuel inverse nn) (data, 2);
  Ok data.

(** *** fix inverse results *)

(** [for i := 0; i < n; i++ { data[i] *= mul }], on the state [(data, i)] *)
Definition scale_cond (n : Z) (s : list F * Z) : bool :=
  let '(_, i) := s in i <? n.
Definition scale_body (mul : F) (s : list F * Z) : outcome (list F * Z) :=
  let '(data, i) := s in
  di ← index data i;
  data ← store data i (di * mul)%f64;
  Ok (data, int_add i 1).

Definition fix_inverse (fuel : nat) (n : Z) (data : list F) : outcome (list F) :=
  let mul := (float64 1 * float64 n)%f64 in
  '(data, _) ← while fuel (scale_cond n) (scale_body mul) (data, 0);
  Ok data.

(** *** [FourierTransLL]

    The result is the slice after the call together with the returned
    [err] ([None] is [nil]). *)
Definition FourierTransLL (fuel : nat) (data : list F) (inverse : bool)
    : outcome (list F * option error) :=
  (* check length of data *)
  let ldata := len data in
  if (ldata <? 4) || (0 <? int_rem ldata 2) then
    Ok (data, Some (InvalidLength ldata))
  else
  (* check for power of two *)
  let n := int_quot ldata 2 in
  if (n <? 2) || negb (IsPowerOfTwo n) then
    Ok (data, Some (NotPowerOfTwo n))
  else
  let nn := int_shl n 1 in
  data ← bit_reversal fuel n nn data;
  data ← danielson_lanczos fuel inverse nn data;
  data ← (if inverse then fix_inverse fuel n data else Ok data);
  Ok (data, None).

End Source.

(** * The vocabulary of the specification *)

(** [loop_runs cond body s k s']: started in [s], the loop goes through its
    body [k] times exactly and leaves in [s']. *)
Inductive loop_runs {St : Type} (cond : St → bool) (body : St → outcome St)
    : St → nat → St → Prop :=
| loop_exit s : cond s = false → loop_runs cond body s O s
| loop_iter s s1 k s' :
    cond s = true → body s = Ok s1 → loop_runs cond body s1 k s' →
    loop_runs cond body s (S k) s'.

(** [2^p]: a valid transform has [n = pow2 p] samples, [p >= 1] *)
Definition pow2 (p : nat) : Z := 2 ^ Z.of_nat p.

(** [bitrev p k]: the number whose [p]-bit binary representation is that of
    [k] read backwards *)
Fixpoint bitrev (p : nat) (k : Z) : Z :=
  match p with
  | O => 0
  | S p' => (k mod 2) * pow2 p' + bitrev p' (k / 2)
  end.

(** the increment of a [q]-bit number from its most significant bit down,
    as the carry loop of the bit-reversal section does it *)
Fixpoint rinc (q : nat) (r : Z) : Z :=
  match q with
  | O => r
  | S q' => if r <? pow2 q' then r + pow2 q' else rinc q' (r - pow2 q')
  end.

(** The entries of a stage.  In the stage of half-width [h] the [n = 2 h nb] samples fall into [nb]
    blocks of [2 h] samples; the entry [eidx h o blk b1 c] is the real
    ([c = 0]) or imaginary ([c = 1]) part of the sample at offset [o] of the
    lower ([b1 = 0]) or upper ([b1 = 1]) half of the block [blk]. *)
Definition eidx (h o blk b1 c : Z) : Z := 2 * (o + h * b1 + 2 * h * blk) + c.

Section Vocabulary.
Context {F : Type} `{Float64 F}.
Implicit Types data : list F.

(** the entry [data[i]], for [i] in range *)
Definition rd data (i : Z) : F := default (float64 0) (data !! Z.to_nat i).

(** the slice after [data[i] = x], for [i] in range *)
Definition upd data (i : Z) (x : F) : list F := <[Z.to_nat i := x]> data.

(** [len(data)] is even and at least 4, and [n = len(data)/2] is a power
    of two; a slice of Go has a length that fits an [int]. *)
Definition valid_input data : Prop :=
  in_int (len data) ∧ 4 <= len data ∧ Z.even (len data) = true
  ∧ ∃ k, 0 <= k ∧ len data / 2 = 2 ^ k.

(** The checks of [FourierTransLL], as a function of the length alone. *)
Definition check_length (ldata : Z) : option error :=
  if (ldata <? 4) || (0 <? int_rem ldata 2) then Some (InvalidLength ldata)
  else let n := int_quot ldata 2 in
       if (n <? 2) || negb (IsPowerOfTwo n) then Some (NotPowerOfTwo n)
       else None.

(** [Swap] of two entries in range *)
Definition swap_at data (a b : Z) : list F :=
  upd (upd data a (rd data b)) b (rd data a).

(** the sample that iteration [t] of the section finds at [s]: the
    samples [s] and [bitrev p s] are exchanged at the smaller of both *)
Definition bitrev_src (p : nat) (t s : Z) : Z :=
  if (s <? t) || (bitrev p s <? t) then bitrev p s else s.

(** the state on entry to iteration [t] *)
Definition bitrev_inv (p : nat) (d0 : list F) (t : nat)
    (s : list F * Z * Z) : Prop :=
  let '(data, j, i) := s in
  i = 2 * Z.of_nat t + 1
  ∧ (Z.of_nat t < pow2 p → j = 2 * bitrev p (Z.of_nat t) + 1)
  ∧ len data = len d0
  ∧ data ≡ₚ d0
  ∧ ∀ s c, 0 <= s < pow2 p → 0 <= c <= 1 →
      rd data (2 * s + c) = rd d0 (2 * bitrev_src p (Z.of_nat t) s + c).

(** the rotation factor [(wr, wi)] on entry to the turn number [o] of the
    middle loop: the trigonometric recurrence *)
Fixpoint twiddle (inverse : bool) (mmax : Z) (o : nat) : F * F :=
  match o with
  | O => (float64 1, float64 0)
  | S o' =>
      let '(wr, wi) := twiddle inverse mmax o' in
      ((wr * wpr inverse mmax - wi * wpi inverse mmax + wr)%f64,
       (wi * wpr inverse mmax + wr * wpi inverse mmax + wi)%f64)
  end.

(** the Danielson-Lanczos formula on the entries [a], [a+1] (the sample
    [i]) and [b], [b+1] (the sample [j]) *)
Definition tempr (wr wi : F) data (b : Z) : F :=
  (wr * rd data b - wi * rd data (b + 1))%f64.
Definition tempi (wr wi : F) data (b : Z) : F :=
  (wr * rd data (b + 1) + wi * rd data b)%f64.

Definition bfly_step data (wr wi : F) (a b : Z) : list F :=
  let tr := tempr wr wi data b in
  let ti := tempi wr wi data b in
  upd (upd (upd (upd data b (rd data a - tr)%f64)
              (b + 1) (rd data (a + 1) - ti)%f64)
         a (rd data a + tr)%f64)
    (a + 1) (rd data (a + 1) + ti)%f64.

(** the value that the stage of half-width [h] leaves in the entry
    [eidx h o blk b1 c], where [a = o + 2 h blk] is the lower sample *)
Definition bfly_val (wr wi : F) (h : Z) data (a b1 c : Z) : F :=
  let tr := tempr wr wi data (2 * (a + h)) in
  let ti := tempi wr wi data (2 * (a + h)) in
  if decide (b1 = 0) then
    if decide (c = 0) then (rd data (2 * a) + tr)%f64
    else (rd data (2 * a + 1) + ti)%f64
  else
    if decide (c = 0) then (rd data (2 * a) - tr)%f64
    else (rd data (2 * a + 1) - ti)%f64.

(** the inner loop, on entry to its turn number [t] *)
Definition inner_inv (h nb o : Z) (wr wi : F) (dS : list F) (t : nat)
    (s : list F * Z) : Prop :=
  let '(data, i) := s in
  i = 2 * (o + 2 * h * Z.of_nat t) + 1
  ∧ len data = len dS
  ∧ ∀ o' blk b1 c,
      0 <= o' < h → 0 <= blk < nb → 0 <= b1 <= 1 → 0 <= c <= 1 →
      rd data (eidx h o' blk b1 c) =
        if decide (o' = o ∧ blk < Z.of_nat t)
        then bfly_val wr wi h dS (o' + 2 * h * blk) b1 c
        else rd dS (eidx h o' blk b1 c).

(** [stage_rel inverse h nb d d']: [d'] is [d] after the stage of
    half-width [h], that is after the turn of the outer loop with
    [mmax = 2 h] *)
Definition stage_rel (inverse : bool) (h nb : Z) (d d' : list F) : Prop :=
  len d' = len d
  ∧ ∀ o blk b1 c,
      0 <= o < h → 0 <= blk < nb → 0 <= b1 <= 1 → 0 <= c <= 1 →
      rd d' (eidx h o blk b1 c) =
        bfly_val (twiddle inverse (2 * h) (Z.to_nat o)).1
                 (twiddle inverse (2 * h) (Z.to_nat o)).2
                 h d (o + 2 * h * blk) b1 c.

(** the middle loop, on entry to its turn number [o] *)
Definition middle_inv (inverse : bool) (h nb : Z) (d0 : list F) (o : nat)
    (s : list F * Z * F * F) : Prop :=
  let '(data, m, wr, wi) := s in
  m = 2 * Z.of_nat o + 1
  ∧ (wr, wi) = twiddle inverse (2 * h) o
  ∧ len data = len d0
  ∧ ∀ o' blk b1 c,
      0 <= o' < h → 0 <= blk < nb → 0 <= b1 <= 1 → 0 <= c <= 1 →
      rd data (eidx h o' blk b1 c) =
        if decide (o' < Z.of_nat o)
        then bfly_val (twiddle inverse (2 * h) (Z.to_nat o')).1
                      (twiddle inverse (2 * h) (Z.to_nat o')).2
                      h d0 (o' + 2 * h * blk) b1 c
        else rd d0 (eidx h o' blk b1 c).

(** [after_stages inverse p q d0 d]: [d] is [d0] after the first [q]
    stages of a transform of [n = 2^p] samples *)
Fixpoint after_stages (inverse : bool) (p q : nat) (d0 d : list F) : Prop :=
  match q with
  | O => d = d0
  | S q' => ∃ d1, after_stages inverse p q' d0 d1
                  ∧ stage_rel inverse (pow2 q') (pow2 (p - 1 - q')) d1 d
  end.

Definition outer_inv (inverse : bool) (p : nat) (d0 : list F) (q : nat)
    (s : list F * Z) : Prop :=
  let '(data, mmax) := s in
  mmax = 2 * pow2 q ∧ after_stages inverse p q d0 data.

(** [scaled_rel n d d']: [d'] is [d] after the loop that fixes the
    inverse results, [for i := 0; i < n; i++ { data[i] *= mul }] *)
Definition scaled_rel (n : Z) (d d' : list F) : Prop :=
  len d' = len d
  ∧ ∀ k, 0 <= k < len d →
      rd d' k = if decide (k < n)
                then (rd d k * (float64 1 * float64 n))%f64
                else rd d k.

Definition scale_inv (n : Z) (d0 : list F) (t : nat) (s : list F * Z) : Prop :=
  let '(data, i) := s in
  i = Z.of_nat t
  ∧ len data = len d0
  ∧ ∀ k, 0 <= k < len d0 →
      rd data k = if decide (k < Z.of_nat t)
                  then (rd d0 k * (float64 1 * float64 n))%f64
                  else rd d0 k.

(** [bitrev_rel p d d']: [d'] is [d] with its [2^p] samples in
    bit-reversed order *)
Definition bitrev_rel (p : nat) (d d' : list F) : Prop :=
  len d' = len d
  ∧ d' ≡ₚ d
  ∧ ∀ s c, 0 <= s < pow2 p → 0 <= c <= 1 →
      rd d' (2 * s + c) = rd d (2 * bitrev p s + c).

(** what a call on a valid slice of [2^p] samples makes of it *)
Definition transform_rel (inverse : bool) (p : nat) (d0 d3 : list F) : Prop :=
  ∃ d1 d2,
    bitrev_rel p d0 d1
    ∧ after_stages inverse p p d1 d2
    ∧ if inverse then scaled_rel (pow2 p) d2 d3 else d3 = d2.

End Vocabulary.

(** ** Complex numbers, as pairs of reals, and the transform in exact
    arithmetic *)

Section ComplexNumbers.
Local Open Scope R_scope.

Definition cplx : Type := R * R.

Definition cadd (x y : cplx) : cplx := (x.1 + y.1, x.2 + y.2).
Definition csub (x y : cplx) : cplx := (x.1 - y.1, x.2 - y.2).
Definition cmul (x y : cplx) : cplx :=
  (x.1 * y.1 - x.2 * y.2, x.1 * y.2 + x.2 * y.1).
Definition cneg (x : cplx) : cplx := (- x.1, - x.2).
Definition cconj (x : cplx) : cplx := (x.1, - x.2).
Definition czero : cplx := (0, 0).
Definition cone : cplx := (1, 0).

(** [cis t] is [e^{i t}] *)
Definition cis (t : R) : cplx := (cos t, sin t).

(** the sum of [f 0], ..., [f (k-1)] *)
Fixpoint csum (k : nat) (f : Z → cplx) : cplx :=
  match k with
  | O => czero
  | S k' => cadd (csum k' f) (f (Z.of_nat k'))
  end.

(** [sgn inverse] is the sign of the exponent: [isign] *)
Definition sgn (inverse : bool) : R := if inverse then 1 else -1.

(** [root inverse N k] is [e^{± i 2 π k / N}], with [+] for the inverse
    transform *)
Definition root (inverse : bool) (N k : Z) : cplx :=
  cis (sgn inverse * (2 * PI / IZR N) * IZR k).

End ComplexNumbers.

(** the sample number [s] of a slice *)
Definition smp (d : list R) (s : Z) : cplx := (rd d (2 * s), rd d (2 * s + 1)).

(** the transform of the [2^q] samples [x[β + t 2^(p-q)]], where [β] is
    [b] with its [p - q] bits reversed *)
Definition dft_block (inverse : bool) (p q : nat) (x : list R) (b l : Z) : cplx :=
  csum (Z.to_nat (pow2 q))
    (λ t, cmul (smp x (bitrev (p - q) b + t * pow2 (p - q)))
               (root inverse (pow2 q) (t * l))).

(** the discrete Fourier transform of the samples of [x]:
    [X[l] = Σ_k x[k] e^{± i 2 π k l / n}] *)
Definition dft (inverse : bool) (n : Z) (x : list R) (l : Z) : cplx :=
  csum (Z.to_nat n) (λ k, cmul (smp x k) (root inverse n (k * l))).

(** the unit impulse on [n] samples: [data[0] = 1], every other entry 0 *)
Definition impulse (n : nat) : list R := 1%R :: replicate (2 * n - 1) 0%R.

(** the slice [1, 0, 1, 0, ..., 1, 0] of [n] samples *)
Fixpoint ones (n : nat) : list R :=
  match n with
  | O => []
  | S n' => 1%R :: 0%R :: ones n'
  end.

(** the slice [a x + b y], entry by entry *)
Definition lincomb (a : R) (x : list R) (b : R) (y : list R) : list R :=
  zip_with (λ u v, (a * u + b * v)%R) x y.

(** the slice of [n] samples that is 0 but for the sample [m], which is
    (1, 0) *)
Definition impulse_at (n m : nat) : list R :=
  <[(2 * m)%nat := 1%R]> (replicate (2 * n) 0%R).

(** a real number as a complex one *)
Definition creal (a : R) : cplx := (a, 0%R).

(** ** Vocabulary for [binary64] *)




(** the real number that a finite double stands for: [± m 2^e]; the zeros
    stand for 0 (and, by convention here, so do NaN and the infinities) *)
Definition float_val (x : float) : R :=
  match FloatOps.Prim2SF x with
  | SpecFloat.S754_finite s m e =>
      ((if s then -1 else 1) * IZR (Z.pos m) * powerRZ 2 e)%R
  | _ => 0%R
  end.

(** [math.Sin] at the three angles that a direct transform of four samples
    asks for, [-π/4], [-π/2] and [-π] (as doubles), each rounded to the
    nearest double; any other argument is returned as it is *)
Definition sin_table (x : float) : float :=
  if (x =? -0x1.921fb54442d18p-1)%float then (-0x1.6a09e667f3bccp-1)%float
  else if (x =? -0x1.921fb54442d18p+0)%float then (-1)%float
  else if (x =? -0x1.921fb54442d18p+1)%float then (-0x1.1a62633145c07p-53)%float
  else x.

Example fl_fwd Sin :
  FourierTransLL (H := binary64 Sin) 10 [1; 2; 3; 4]%float false
  = Ok ([4; 6; -2; -2]%float, None).
Proof. vm_compute. reflexivity. Qed.

(** * Verification *)

(** ** Integers without overflow *)

Lemma int_wrap_small z : in_int z → int_wrap z = z.
Proof.
  unfold in_int, int_min, int_max, int_wrap. intros Hz.
  rewrite Z.mod_small by lia. lia.
Qed.

Lemma int_add_small a b : in_int (a + b) → int_add a b = a + b.
Proof. apply int_wrap_small. Qed.

Lemma int_sub_small a b : in_int (a - b) → int_sub a b = a - b.
Proof. apply int_wrap_small. Qed.

Lemma int_shl1_small a : in_int (2 * a) → int_shl a 1 = 2 * a.
Proof.
  intros Ha. unfold int_shl. rewrite Z.shiftl_mul_pow2 by lia.
  change (2 ^ 1) with 2. rewrite Z.mul_comm. by apply int_wrap_small.
Qed.

Lemma int_shr1 a : int_shr a 1 = a / 2.
Proof. unfold int_shr. by rewrite Z.shiftr_div_pow2 by lia. Qed.

Lemma int_quot2_small a : 0 <= a → in_int a → int_quot a 2 = a / 2.
Proof.
  intros H0 Ha. unfold int_quot. rewrite Z.quot_div_nonneg by lia.
  apply int_wrap_small. unfold in_int, int_min, int_max in *.
  assert (0 <= a / 2 <= a); [|lia].
  split; [apply Z.div_pos; lia|apply Z.div_le_upper_bound; lia].
Qed.

Lemma int_rem2_small a : 0 <= a → int_rem a 2 = a mod 2.
Proof. intros. unfold int_rem. by rewrite Z.rem_mod_nonneg by lia. Qed.

(** ** Loops *)

Section Loops.
Context {St : Type} (cond : St → bool) (body : St → outcome St).

Lemma loop_runs_while s k s' :
  loop_runs cond body s k s' →
  ∀ fuel, (k < fuel)%nat → while fuel cond body s = Ok s'.
Proof.
  induction 1 as [s Hc|s s1 k s' Hc Hb _ IH]; intros [|fuel] Hf; try lia.
  - simpl. by rewrite Hc.
  - simpl. rewrite Hc, Hb. simpl. apply IH. lia.
Qed.

Lemma loop_runs_exit s k s' : loop_runs cond body s k s' → cond s' = false.
Proof. by induction 1. Qed.

Lemma loop_runs_repeat s k s' :
  loop_runs cond body s k s' → repeat_body k body s = Ok s'.
Proof.
  induction 1 as [|s s1 k s' Hc Hb _ IH]; [done|].
  simpl. by rewrite Hb.
Qed.

Lemma loop_runs_det s k1 s1 k2 s2 :
  loop_runs cond body s k1 s1 → loop_runs cond body s k2 s2 →
  k1 = k2 ∧ s1 = s2.
Proof.
  intros H1. revert k2 s2.
  induction H1 as [s Hc|s sa k s' Hc Hb _ IH]; intros k2 s2 H2.
  - inversion H2 as [|? sb ? ? Hc2]; subst; [done|congruence].
  - inversion H2 as [? Hc2|? sb k' ? Hc2 Hb2 Hr2]; subst; [congruence|].
    assert (sa = sb) by congruence. subst.
    destruct (IH _ _ Hr2) as [-> ->]. done.
Qed.

(** The rule for a counted loop: [P k] holds of the state on entry to the
    iteration number [k], the loop leaves after [N] iterations. *)
Lemma loop_runs_counted (P : nat → St → Prop) (N : nat) s :
  P O s →
  (∀ k s, (k < N)%nat → P k s →
     cond s = true ∧ ∃ s', body s = Ok s' ∧ P (S k) s') →
  (∀ s, P N s → cond s = false) →
  ∃ s', loop_runs cond body s N s' ∧ P N s'.
Proof.
  intros H0 Hstep Hexit.
  assert (∀ d k s, (k + d = N)%nat → P k s →
            ∃ s', loop_runs cond body s d s' ∧ P N s') as Hgen.
  { induction d as [|d IH]; intros k s1 Hk HP.
    - replace N with k in * by lia. exists s1. split; [|done].
      constructor. by apply Hexit.
    - destruct (Hstep k s1) as (Hc & s2 & Hb & HP2); [lia|done|].
      destruct (IH (S k) s2) as (s' & Hr & HP'); [lia|done|].
      exists s'. split; [|done]. by econstructor. }
  by apply (Hgen N O s).
Qed.

(** The state on entry to the turn number [k] of a counted loop. *)
Lemma loop_counted_prefix (P : nat → St → Prop) (N : nat) s :
  P O s →
  (∀ k s, (k < N)%nat → P k s →
     cond s = true ∧ ∃ s', body s = Ok s' ∧ P (S k) s') →
  ∀ k, (k <= N)%nat → ∃ sk, repeat_body k body s = Ok sk ∧ P k sk.
Proof.
  intros H0 Hstep.
  assert (∀ k j s, (j + k <= N)%nat → P j s →
            ∃ sk, repeat_body k body s = Ok sk ∧ P (j + k)%nat sk) as Hgen.
  { induction k as [|k IH]; intros j s1 Hjk HP.
    - exists s1. by rewrite Nat.add_0_r.
    - destruct (Hstep j s1) as (_ & s2 & Hb & HP2); [lia|done|].
      destruct (IH (S j) s2) as (sk & Hr & HPk); [lia|done|].
      exists sk. simpl. rewrite Hb. simpl.
      by replace (j + S k)%nat with (S j + k)%nat by lia. }
  intros k Hk. by apply (Hgen k O s).
Qed.

(** The states met on the way: the loop test holds in each of them. *)
Lemma loop_runs_prefix s k s' :
  loop_runs cond body s k s' →
  ∀ i, (i < k)%nat → ∃ si, repeat_body i body s = Ok si ∧ cond si = true.
Proof.
  induction 1 as [|s s1 k s' Hc Hb _ IH]; intros i Hi; [lia|].
  destruct i as [|i]; [by exists s|].
  destruct (IH i) as (si & Hr & Hci); [lia|].
  exists si. simpl. by rewrite Hb.
Qed.
End Loops.

(** ** [IsPowerOfTwo] *)

Lemma land_even_odd a b : Z.land (2 * a) (2 * b + 1) = 2 * Z.land a b.
Proof.
  apply Z.bits_inj'. intros i Hi.
  rewrite Z.land_spec.
  destruct (Z.eq_dec i 0) as [->|Hne].
  - by rewrite !Z.testbit_even_0.
  - replace i with (Z.succ (i - 1)) by lia.
    rewrite !Z.testbit_even_succ, Z.testbit_odd_succ by lia.
    by rewrite Z.land_spec.
Qed.

Lemma land_odd_even a b : Z.land (2 * a + 1) (2 * b) = 2 * Z.land a b.
Proof. by rewrite Z.land_comm, land_even_odd, Z.land_comm. Qed.

Lemma land_pred_pow2 k : 0 <= k → Z.land (2 ^ k) (2 ^ k - 1) = 0.
Proof.
  revert k. apply natlike_ind; [done|].
  intros k Hk IH. rewrite Z.pow_succ_r by done.
  replace (2 * 2 ^ k - 1) with (2 * (2 ^ k - 1) + 1) by lia.
  rewrite land_even_odd, IH. done.
Qed.

Lemma land_pred_zero n :
  1 <= n → Z.land n (n - 1) = 0 → ∃ k, 0 <= k ∧ n = 2 ^ k.
Proof.
  assert (∀ b : nat, ∀ n, 1 <= n <= Z.of_nat b → Z.land n (n - 1) = 0 →
            ∃ k, 0 <= k ∧ n = 2 ^ k) as Hgen.
  { induction b as [|b IH]; intros m Hm Hl; [lia|].
    destruct (Z.eq_dec (m mod 2) 0) as [Hev|Hodd].
    - assert (m = 2 * (m / 2)) as Hm2 by (pose proof (Z.div_mod m 2); lia).
      rewrite Hm2 in Hl at 1.
      replace (m - 1) with (2 * (m / 2 - 1) + 1) in Hl by lia.
      rewrite land_even_odd in Hl.
      destruct (IH (m / 2)) as (k & Hk & Hmk); [lia|lia|].
      exists (k + 1). split; [lia|].
      rewrite Z.pow_add_r by lia. lia.
    - assert (m = 2 * (m / 2) + 1) as Hm2
        by (pose proof (Z.div_mod m 2); pose proof (Z.mod_pos_bound m 2); lia).
      rewrite Hm2 in Hl at 1.
      replace (m - 1) with (2 * (m / 2)) in Hl by lia.
      rewrite land_odd_even, Z.land_diag in Hl.
      exists 0. split; [done|]. simpl. lia. }
  intros Hn. apply (Hgen (Z.to_nat n)). lia.
Qed.

Lemma IsPowerOfTwo_true n :
  in_int n → IsPowerOfTwo n = true ↔ ∃ k, 0 <= k ∧ n = 2 ^ k.
Proof.
  intros Hn. unfold IsPowerOfTwo, int_and.
  destruct (Z.ltb_spec n 1) as [Hlt|Hge].
  - split; [done|]. intros (k & Hk & ->).
    pose proof (Z.pow_pos_nonneg 2 k). lia.
  - rewrite int_sub_small
      by (unfold in_int, int_min, int_max in *; lia).
    rewrite Z.eqb_eq. split; [by apply land_pred_zero|].
    intros (k & Hk & ->). by apply land_pred_pow2.
Qed.

(** C10. [IsPowerOfTwo(n)] is true exactly when [n >= 1] is a power of
    two, [n = 2^k] with [k >= 0]; it is true of 1 and false of zero and of
    every negative [n]. *)
Theorem IsPowerOfTwo_spec n :
  in_int n →
  (IsPowerOfTwo n = true ↔ 1 <= n ∧ ∃ k, 0 <= k ∧ n = 2 ^ k)
  ∧ IsPowerOfTwo 1 = true
  ∧ (n <= 0 → IsPowerOfTwo n = false).
Proof.
  intros Hn. split; [|split].
  - rewrite (IsPowerOfTwo_true n Hn). split; [|by intros [_ ?]].
    intros (k & Hk & ->). split; [|by exists k].
    pose proof (Z.pow_pos_nonneg 2 k). lia.
  - done.
  - intros Hle. unfold IsPowerOfTwo.
    by destruct (Z.ltb_spec n 1); [|lia].
Qed.

Lemma IsPowerOfTwo_spec_witness :
  in_int 8
  ∧ ((IsPowerOfTwo 8 = true ↔ 1 <= 8 ∧ ∃ k, 0 <= k ∧ 8 = 2 ^ k)
     ∧ IsPowerOfTwo 1 = true
     ∧ (8 <= 0 → IsPowerOfTwo 8 = false)).
Proof.
  assert (in_int 8) as H8 by (unfold in_int, int_min, int_max; lia).
  split; [exact H8|]. exact (IsPowerOfTwo_spec 8 H8).
Defined.

(** ** Powers of two *)

Lemma pow2_0 : pow2 0 = 1.
Proof. done. Qed.

Lemma pow2_S p : pow2 (S p) = 2 * pow2 p.
Proof. unfold pow2. rewrite Nat2Z.inj_succ, Z.pow_succ_r by lia. done. Qed.

Lemma pow2_pos p : 0 < pow2 p.
Proof. unfold pow2. apply Z.pow_pos_nonneg; lia. Qed.

Lemma pow2_add p q : pow2 (p + q) = pow2 p * pow2 q.
Proof. unfold pow2. rewrite Nat2Z.inj_add, Z.pow_add_r by lia. done. Qed.

Lemma pow2_le p q : (p <= q)%nat → pow2 p <= pow2 q.
Proof. intros. unfold pow2. apply Z.pow_le_mono_r; lia. Qed.

Lemma pow2_lt p q : (p < q)%nat → pow2 p < pow2 q.
Proof. intros. unfold pow2. apply Z.pow_lt_mono_r; lia. Qed.

Lemma pow2_ge_2 p : (1 <= p)%nat → 2 <= pow2 p.
Proof. intros. change 2 with (pow2 1) at 1. by apply pow2_le. Qed.

Lemma pow2_of_Z k : 0 <= k → 2 ^ k = pow2 (Z.to_nat k).
Proof. intros. unfold pow2. by rewrite Z2Nat.id. Qed.

(** ** Slices *)

Section Arrays.
Context {F : Type} `{Float64 F}.
Implicit Types data : list F.

Lemma len_upd data i x : len (upd data i x) = len data.
Proof. unfold len, upd. by rewrite length_insert. Qed.

Lemma len_nonneg data : 0 <= len data.
Proof. unfold len. lia. Qed.

Lemma index_ok data i : 0 <= i < len data → index data i = Ok (rd data i).
Proof.
  intros Hi. unfold index, rd.
  destruct (Z.ltb_spec i 0); [lia|]. destruct (Z.leb_spec (len data) i); [lia|].
  simpl. destruct (data !! Z.to_nat i) eqn:Hl; [done|].
  apply lookup_ge_None in Hl. unfold len in *. lia.
Qed.

Lemma index_Ok_inv data i x : index data i = Ok x → 0 <= i < len data.
Proof.
  unfold index.
  destruct (Z.ltb_spec i 0); [done|]. by destruct (Z.leb_spec (len data) i).
Qed.

Lemma store_ok data i x : 0 <= i < len data → store data i x = Ok (upd data i x).
Proof.
  intros Hi. unfold store.
  destruct (Z.ltb_spec i 0); [lia|]. by destruct (Z.leb_spec (len data) i); [lia|].
Qed.

Lemma rd_upd_eq data i x : 0 <= i < len data → rd (upd data i x) i = x.
Proof.
  intros Hi. unfold rd, upd.
  rewrite list_lookup_insert_eq; [done|]. unfold len in *. lia.
Qed.

Lemma rd_upd_ne data i k x : 0 <= i → 0 <= k → i ≠ k → rd (upd data i x) k = rd data k.
Proof.
  intros Hi Hk Hne. unfold rd, upd.
  rewrite list_lookup_insert_ne; [done|]. lia.
Qed.

Lemma lookup_rd data i : 0 <= i < len data → data !! Z.to_nat i = Some (rd data i).
Proof.
  intros Hi. unfold rd. destruct (data !! Z.to_nat i) eqn:Hl; [done|].
  apply lookup_ge_None in Hl. unfold len in *. lia.
Qed.

Lemma rd_ext data1 data2 :
  len data1 = len data2 →
  (∀ i, 0 <= i < len data1 → rd data1 i = rd data2 i) →
  data1 = data2.
Proof.
  intros Hlen Hrd. apply list_eq. intros i.
  destruct (decide (i < length data1)%nat) as [Hi|Hi].
  - pose proof (lookup_rd data1 (Z.of_nat i)) as H1.
    pose proof (lookup_rd data2 (Z.of_nat i)) as H2.
    rewrite Nat2Z.id in H1, H2. unfold len in *.
    rewrite H1, H2 by lia. f_equal. apply Hrd. lia.
  - unfold len in *.
    rewrite (lookup_ge_None_2 data1), (lookup_ge_None_2 data2) by lia. done.
Qed.

(** *** valid inputs *)

Lemma valid_input_shape data :
  valid_input data ↔
  ∃ p, (1 <= p)%nat ∧ len data = 2 * pow2 p ∧ 2 * pow2 p <= int_max.
Proof.
  split.
  - intros (Hint & H4 & Hev & k & Hk & Hn).
    apply Z.even_spec in Hev as [m Hm].
    rewrite Hm, (Z.mul_comm 2 m), Z.div_mul in Hn by lia.
    rewrite pow2_of_Z in Hn by done.
    exists (Z.to_nat k). split_and!; [|lia|unfold in_int in Hint; lia].
    destruct (Z.to_nat k) eqn:Hk0; [|lia]. rewrite pow2_0 in Hn. lia.
  - intros (p & Hp & Hlen & Hmax).
    pose proof (pow2_ge_2 p Hp) as H2.
    split_and!.
    + unfold in_int, int_min. lia.
    + lia.
    + rewrite Hlen, Z.even_mul. done.
    + exists (Z.of_nat p). split; [lia|].
      rewrite Hlen, (Z.mul_comm 2), Z.div_mul by lia. done.
Qed.

Lemma FourierTransLL_valid fuel data inverse p :
  (1 <= p)%nat → len data = 2 * pow2 p → 2 * pow2 p <= int_max →
  FourierTransLL fuel data inverse =
    (data ← bit_reversal fuel (pow2 p) (2 * pow2 p) data;
     data ← danielson_lanczos fuel inverse (2 * pow2 p) data;
     data ← (if inverse then fix_inverse fuel (pow2 p) data else Ok data);
     Ok (data, None)).
Proof.
  intros Hp Hlen Hmax. unfold FourierTransLL.
  pose proof (pow2_ge_2 p Hp) as H2.
  assert (in_int (len data)) as Hint by (unfold in_int, int_min; lia).
  rewrite int_rem2_small, int_quot2_small by first [assumption|lia].
  assert (len data / 2 = pow2 p) as Hn
    by (rewrite Hlen, (Z.mul_comm 2), Z.div_mul by lia; done).
  assert (len data mod 2 = 0) as Hev
    by (rewrite Hlen, (Z.mul_comm 2), Z.mod_mul by lia; done).
  rewrite Hn, Hev.
  destruct (Z.ltb_spec (len data) 4); [lia|].
  destruct (Z.ltb_spec (pow2 p) 2); [lia|]. simpl.
  assert (IsPowerOfTwo (pow2 p) = true) as ->.
  { apply IsPowerOfTwo_true; [unfold in_int, int_min; lia|].
    exists (Z.of_nat p). split; [lia|done]. }
  simpl. rewrite int_shl1_small by (unfold in_int, int_min; lia). done.
Qed.

Lemma FourierTransLL_check_Some fuel data inverse e :
  check_length (len data) = Some e →
  FourierTransLL fuel data inverse = Ok (data, Some e).
Proof.
  unfold check_length, FourierTransLL.
  destruct ((len data <? 4) || (0 <? int_rem (len data) 2)); [congruence|].
  destruct ((int_quot (len data) 2 <? 2)
            || negb (IsPowerOfTwo (int_quot (len data) 2))); [congruence|done].
Qed.

Lemma FourierTransLL_check_None fuel data inverse r :
  check_length (len data) = None →
  FourierTransLL fuel data inverse = Ok r → r.2 = None.
Proof.
  unfold check_length, FourierTransLL.
  destruct ((len data <? 4) || (0 <? int_rem (len data) 2)); [done|].
  destruct ((int_quot (len data) 2 <? 2)
            || negb (IsPowerOfTwo (int_quot (len data) 2))); [done|].
  intros _.
  destruct (bit_reversal _ _ _ _) as [d1| |]; simpl; try done.
  destruct (danielson_lanczos _ _ _ _) as [d2| |]; simpl; try done.
  destruct (if inverse then _ else _) as [d3| |]; simpl; try done.
  by intros [= <-].
Qed.

End Arrays.

(** C3. Whenever [FourierTransLL] returns an error the slice is left as it
    was: the checks come before any element is read or written.  The error
    is decided by the length alone: the call fails in the same way on every
    slice of that length, whatever its entries and the direction, and with
    no fuel at all, that is before any loop is entered. *)
Theorem error_leaves_data_unchanged {F : Type} `{Float64 F}
    (fuel : nat) (data data' : list F) (inverse : bool) (e : error) :
  FourierTransLL fuel data inverse = Ok (data', Some e) →
  data' = data
  ∧ ∀ (other : list F) (inverse' : bool),
      length other = length data →
      FourierTransLL 0 other inverse' = Ok (other, Some e).
Proof.
  intros Hrun.
  destruct (check_length (len data)) as [e'|] eqn:Hchk.
  - rewrite (FourierTransLL_check_Some fuel data inverse e' Hchk) in Hrun.
    injection Hrun as <- <-. split; [done|].
    intros other inverse' Hlen. apply FourierTransLL_check_Some.
    unfold len. by rewrite Hlen.
  - by apply (FourierTransLL_check_None _ _ _ _ Hchk) in Hrun.
Qed.

Lemma error_leaves_data_unchanged_witness :
  FourierTransLL (H := ideal) 8 [1; 2; 3; 4; 5]%R true
    = Ok ([1; 2; 3; 4; 5]%R, Some (InvalidLength 5))
  ∧ ([1; 2; 3; 4; 5]%R = [1; 2; 3; 4; 5]%R
     ∧ ∀ (other : list R) (inverse' : bool),
         length other = length [1; 2; 3; 4; 5]%R →
         FourierTransLL 0 other inverse' = Ok (other, Some (InvalidLength 5))).
Proof.
  assert (FourierTransLL (H := ideal) 8 [1; 2; 3; 4; 5]%R true
            = Ok ([1; 2; 3; 4; 5]%R, Some (InvalidLength 5))) as Hrun
    by reflexivity.
  split; [exact Hrun|].
  exact (error_leaves_data_unchanged 8 _ _ true _ Hrun).
Defined.

(** ** Bit reversal *)

Lemma bitrev_bound p k : 0 <= bitrev p k < pow2 p.
Proof.
  revert k. induction p as [|p IH]; intros k; simpl; [rewrite pow2_0; lia|].
  specialize (IH (k / 2)). rewrite pow2_S.
  pose proof (Z.mod_pos_bound k 2). nia.
Qed.

Lemma half_bound k p : 0 <= k < pow2 (S p) → 0 <= k / 2 < pow2 p.
Proof.
  rewrite pow2_S. intros Hk. split; [apply Z.div_pos; lia|].
  apply Z.div_lt_upper_bound; lia.
Qed.

Lemma bitrev_top p k b :
  0 <= k < pow2 p → 0 <= b <= 1 →
  bitrev (S p) (k + b * pow2 p) = 2 * bitrev p k + b.
Proof.
  revert k. induction p as [|p IH]; intros k Hk Hb.
  - rewrite pow2_0 in *. assert (k = 0) as -> by lia. simpl.
    rewrite pow2_0. assert (b = 0 ∨ b = 1) as [-> | ->] by lia; done.
  - change (bitrev (S (S p)) (k + b * pow2 (S p)))
      with ((k + b * pow2 (S p)) mod 2 * pow2 (S p)
            + bitrev (S p) ((k + b * pow2 (S p)) / 2)).
    assert ((k + b * pow2 (S p)) mod 2 = k mod 2) as ->.
    { rewrite pow2_S. replace (b * (2 * pow2 p)) with ((b * pow2 p) * 2) by lia.
      by rewrite Z.mod_add by lia. }
    assert ((k + b * pow2 (S p)) / 2 = k / 2 + b * pow2 p) as ->.
    { rewrite pow2_S. replace (b * (2 * pow2 p)) with ((b * pow2 p) * 2) by lia.
      by rewrite Z.div_add by lia. }
    rewrite IH by (by apply half_bound || lia).
    simpl. rewrite pow2_S. lia.
Qed.

Lemma bitrev_invol p k : 0 <= k < pow2 p → bitrev p (bitrev p k) = k.
Proof.
  revert k. induction p as [|p IH]; intros k Hk.
  - rewrite pow2_0 in Hk. simpl. lia.
  - change (bitrev (S p) k) with (k mod 2 * pow2 p + bitrev p (k / 2)).
    rewrite Z.add_comm, bitrev_top
      by (apply bitrev_bound || (pose proof (Z.mod_pos_bound k 2); lia)).
    rewrite IH by (by apply half_bound).
    pose proof (Z.div_mod k 2). lia.
Qed.


Lemma bitrev_even p b : bitrev (S p) (2 * b) = bitrev p b.
Proof.
  simpl. rewrite (Z.mul_comm 2 b), Z.mod_mul, Z.div_mul by lia. lia.
Qed.

Lemma bitrev_odd p b : bitrev (S p) (2 * b + 1) = bitrev p b + pow2 p.
Proof.
  simpl. replace (2 * b + 1) with (1 + b * 2) by lia.
  rewrite Z.mod_add, Z.div_add by lia.
  change (1 `mod` 2) with 1. change (1 `div` 2) with 0.
  rewrite Z.add_0_l. lia.
Qed.

Lemma bitrev_0 p : bitrev p 0 = 0.
Proof.
  induction p as [|p IH]; [done|].
  change (bitrev (S p) 0) with (0 * pow2 p + bitrev p 0). lia.
Qed.

(** counting up in the reversed order *)
Lemma rinc_bitrev q k :
  0 <= k → k + 1 < pow2 q → rinc q (bitrev q k) = bitrev q (k + 1).
Proof.
  revert k. induction q as [|q IH]; intros k Hk Hlt.
  - rewrite pow2_0 in Hlt. lia.
  - rewrite pow2_S in Hlt.
    pose proof (Z.div_mod k 2 ltac:(lia)) as Hdm.
    pose proof (Z.mod_pos_bound k 2 ltac:(lia)) as Hm.
    pose proof (bitrev_bound q (k / 2)) as Hb.
    assert (k mod 2 = 0 ∨ k mod 2 = 1) as [Hev|Hodd] by lia.
    + replace k with (2 * (k / 2)) at 1 2 by lia.
      replace (2 * (k / 2) + 1) with (2 * (k / 2) + 1) by lia.
      rewrite bitrev_even, bitrev_odd. simpl.
      destruct (Z.ltb_spec (bitrev q (k / 2)) (pow2 q)); [done|lia].
    + replace k with (2 * (k / 2) + 1) at 1 2 by lia.
      replace (2 * (k / 2) + 1 + 1) with (2 * (k / 2 + 1)) by lia.
      rewrite bitrev_even, bitrev_odd. simpl.
      destruct (Z.ltb_spec (bitrev q (k / 2) + pow2 q) (pow2 q)); [lia|].
      replace (bitrev q (k / 2) + pow2 q - pow2 q) with (bitrev q (k / 2)) by lia.
      apply IH; [apply Z.div_pos; lia|lia].
Qed.

Lemma pow2_gt p : Z.of_nat p < pow2 p.
Proof.
  induction p as [|p IH]; [done|]. rewrite pow2_S. pose proof (pow2_pos p). lia.
Qed.

Arguments pow2 : simpl never.
Arguments bitrev : simpl never.
Arguments rinc : simpl never.

Ltac int_range := unfold in_int, int_min, int_max in *; lia.

(** *** the carry loop *)

(** The carry loop ends from every state: [m] is halved by each turn. *)
Lemma carry_loop_ends j m :
  ∃ k s', loop_runs carry_cond carry_body (j, m) k s' ∧ (k <= Z.to_nat m)%nat.
Proof.
  assert (∀ b : nat, ∀ j m, (Z.to_nat m <= b)%nat →
            ∃ k s', loop_runs carry_cond carry_body (j, m) k s'
                    ∧ (k <= Z.to_nat m)%nat) as Hgen.
  { induction b as [|b IH]; intros j1 m1 Hm.
    - exists O, (j1, m1). split; [|lia]. constructor. simpl.
      destruct (Z.leb_spec 2 m1); [lia|done].
    - destruct (carry_cond (j1, m1)) eqn:Hc.
      + assert (2 <= m1) as H2.
        { simpl in Hc. apply andb_true_iff in Hc as [H2 _]. by apply Z.leb_le. }
        assert (0 <= m1 / 2 < m1) as Hhalf.
        { split; [apply Z.div_pos; lia|apply Z.div_lt; lia]. }
        destruct (IH (int_sub j1 m1) (m1 / 2)) as (k & s' & Hr & Hk); [lia|].
        exists (S k), s'. split; [|lia].
        eapply loop_iter; [exact Hc| |exact Hr].
        simpl. by rewrite int_shr1.
      + exists O, (j1, m1). split; [|lia]. by constructor. }
  by apply (Hgen (Z.to_nat m)).
Qed.

(** Started on [j = 2r+1] and [m = 2^q], the carry loop followed by
    [j += m] counts [r] up in the reversed order. *)
Lemma carry_loop_runs q r :
  0 <= r < pow2 q → 2 * pow2 q <= int_max →
  ∃ k j m, loop_runs carry_cond carry_body (2 * r + 1, pow2 q) k (j, m)
           ∧ (k <= q)%nat
           ∧ 0 < j <= 2 * r + 1 ∧ 0 < m <= pow2 q
           ∧ j + m <= 2 * pow2 q + 1
           ∧ (r + 1 < pow2 q → j + m = 2 * rinc q r + 1).
Proof.
  revert r. induction q as [|q IH]; intros r Hr Hmax.
  - rewrite pow2_0 in *. exists O, (2 * r + 1), 1.
    split_and!; try lia. by constructor.
  - rewrite pow2_S in *. pose proof (pow2_pos q) as Hq.
    destruct (Z.ltb_spec r (pow2 q)) as [Hlt|Hge].
    + exists O, (2 * r + 1), (2 * pow2 q).
      split_and!; try lia.
      * constructor. simpl. rewrite andb_false_iff, Z.ltb_ge. lia.
      * intros _. unfold rinc; fold rinc.
        destruct (Z.ltb_spec r (pow2 q)); lia.
    + destruct (IH (r - pow2 q)) as (k & j & m & Hrun & Hk & Hj & Hm & Hle & Hsum);
        [lia|lia|].
      exists (S k), j, m. split_and!; try lia.
      * eapply loop_iter; [| |exact Hrun].
        { simpl. rewrite andb_true_iff, Z.leb_le, Z.ltb_lt. lia. }
        simpl. rewrite int_sub_small, int_shr1 by int_range.
        do 2 f_equal; [lia|].
        rewrite (Z.mul_comm 2), Z.div_mul by lia. done.
      * intros Hr1. unfold rinc; fold rinc.
        destruct (Z.ltb_spec r (pow2 q)); [lia|]. apply Hsum. lia.
Qed.

Lemma bitrev_max p : bitrev p (pow2 p - 1) = pow2 p - 1.
Proof.
  induction p as [|p IH]; [done|].
  rewrite pow2_S. replace (2 * pow2 p - 1) with (2 * (pow2 p - 1) + 1) by lia.
  rewrite bitrev_odd, IH. lia.
Qed.

Lemma bitrev_not_max p k :
  0 <= k → k + 1 < pow2 p → bitrev p k + 1 < pow2 p.
Proof.
  intros Hk Hlt. pose proof (bitrev_bound p k) as Hb.
  destruct (decide (bitrev p k = pow2 p - 1)) as [Heq|Hne]; [|lia].
  pose proof (bitrev_invol p k ltac:(lia)) as Hinv.
  rewrite Heq, bitrev_max in Hinv. lia.
Qed.

Section BitReversal.
Context {F : Type} `{Float64 F}.
Implicit Types data : list F.

Lemma Swap_ok data a b :
  0 <= a < len data → 0 <= b < len data →
  Swap data a b = Ok (swap_at data a b).
Proof.
  intros Ha Hb. unfold Swap, swap_at.
  rewrite !index_ok by done. simpl.
  rewrite store_ok by done. simpl.
  rewrite store_ok by (by rewrite len_upd). done.
Qed.

Lemma len_swap_at data a b : len (swap_at data a b) = len data.
Proof. unfold swap_at. by rewrite !len_upd. Qed.

Lemma rd_swap_at data a b k :
  0 <= a < len data → 0 <= b < len data → 0 <= k →
  rd (swap_at data a b) k =
    if decide (k = b) then rd data a
    else if decide (k = a) then rd data b else rd data k.
Proof.
  intros Ha Hb Hk. unfold swap_at.
  destruct (decide (k = b)) as [->|Hkb].
  - by rewrite rd_upd_eq by (by rewrite len_upd).
  - rewrite rd_upd_ne by lia.
    destruct (decide (k = a)) as [->|Hka].
    + by rewrite rd_upd_eq.
    + by rewrite rd_upd_ne by lia.
Qed.

Lemma swap_at_Permutation data a b :
  0 <= a < len data → 0 <= b < len data → swap_at data a b ≡ₚ data.
Proof.
  intros Ha Hb. unfold swap_at, upd.
  apply Permutation_insert_swap; by apply lookup_rd.
Qed.

Lemma bitrev_src_step p t s :
  0 <= t < pow2 p → 0 <= s < pow2 p →
  s ≠ t → s ≠ bitrev p t →
  bitrev_src p (t + 1) s = bitrev_src p t s.
Proof.
  intros Ht Hs Hst Hsr. unfold bitrev_src.
  assert (bitrev p s ≠ t).
  { intros Heq. apply Hsr. by rewrite <- Heq, bitrev_invol. }
  destruct (Z.ltb_spec s (t + 1)), (Z.ltb_spec s t),
    (Z.ltb_spec (bitrev p s) (t + 1)), (Z.ltb_spec (bitrev p s) t);
    simpl; lia.
Qed.

Lemma bitrev_body_ok fuel p d0 t s :
  (1 <= p)%nat → len d0 = 2 * pow2 p → 2 * pow2 p <= int_max →
  (p < fuel)%nat → Z.of_nat t < pow2 p →
  bitrev_inv p d0 t s →
  bitrev_cond (2 * pow2 p) s = true
  ∧ ∃ s', bitrev_body fuel (pow2 p) s = Ok s' ∧ bitrev_inv p d0 (S t) s'.
Proof.
  intros Hp Hlen Hmax Hfuel Ht. destruct s as [[data j] i].
  intros (-> & Hj & Hl & Hperm & Hrd). specialize (Hj Ht). subst j.
  set (tz := Z.of_nat t) in *. set (r := bitrev p tz).
  pose proof (bitrev_bound p tz) as Hr. fold r in Hr.
  assert (bitrev p r = tz) as Hrr by (apply bitrev_invol; lia).
  split; [simpl; apply Z.ltb_lt; lia|].
  destruct (carry_loop_runs p r)
    as (k & j' & m' & Hrun & Hk & Hj' & Hm' & Hle & Hsum);
    [done|done|].
  unfold bitrev_body.
  rewrite (loop_runs_while _ _ _ _ _ Hrun) by lia.
  rewrite !int_sub_small, !int_add_small by int_range.
  assert (int_add j' m' = j' + m') as Hjm by (apply int_add_small; int_range).
  replace (2 * r + 1 - 1) with (2 * r) by lia.
  replace (2 * tz + 1 - 1) with (2 * tz) by lia.
  assert (Z.of_nat (S t) = tz + 1) as HSt by lia.
  destruct (Z.ltb_spec (2 * tz + 1) (2 * r + 1)) as [Hlt|Hge].
  - (* the two samples are exchanged *)
    rewrite Swap_ok by lia. simpl.
    rewrite Swap_ok by (rewrite len_swap_at; lia). simpl.
    eexists. split; [done|]. unfold bitrev_inv. rewrite HSt, Hjm.
    split_and!.
    + lia.
    + intros Hlt'. rewrite Hsum by (apply bitrev_not_max; lia).
      unfold r. rewrite rinc_bitrev by lia. done.
    + by rewrite !len_swap_at.
    + rewrite swap_at_Permutation by (rewrite len_swap_at; lia).
      by rewrite swap_at_Permutation by lia.
    + intros s c Hs Hc.
      rewrite rd_swap_at by (rewrite ?len_swap_at; lia).
      rewrite !rd_swap_at by lia.
      destruct (decide (s = tz)) as [->|Hst].
      { (* the entry comes from [r] *)
        assert (bitrev_src p (tz + 1) tz = r) as ->.
        { unfold bitrev_src. destruct (Z.ltb_spec tz (tz + 1)); [done|lia]. }
        assert (rd data (2 * r + c) = rd d0 (2 * r + c)) as Hold.
        { rewrite Hrd by lia. unfold bitrev_src. rewrite Hrr.
          destruct (Z.ltb_spec r tz), (Z.ltb_spec tz tz); simpl; try lia; done. }
        assert (c = 0 ∨ c = 1) as [-> | ->] by lia.
        - rewrite ?Z.add_0_r in *. repeat case_decide; try lia. done.
        - repeat case_decide; try lia. done. }
      destruct (decide (s = r)) as [->|Hsr].
      { (* the entry comes from [t] *)
        assert (bitrev_src p (tz + 1) r = tz) as ->.
        { unfold bitrev_src. rewrite Hrr.
          destruct (Z.ltb_spec r (tz + 1)), (Z.ltb_spec tz (tz + 1));
            simpl; lia. }
        assert (rd data (2 * tz + c) = rd d0 (2 * tz + c)) as Hold.
        { rewrite Hrd by lia. unfold bitrev_src. fold r.
          destruct (Z.ltb_spec r tz), (Z.ltb_spec tz tz); simpl; try lia; done. }
        assert (c = 0 ∨ c = 1) as [-> | ->] by lia.
        - rewrite ?Z.add_0_r in *. repeat case_decide; try lia. done.
        - repeat case_decide; try lia. done. }
      rewrite bitrev_src_step by (done || lia).
      repeat case_decide; try lia. by apply Hrd.
  - (* nothing is exchanged *)
    simpl. eexists. split; [done|]. unfold bitrev_inv. rewrite HSt, Hjm.
    split_and!; try done.
    + lia.
    + intros Hlt'. rewrite Hsum by (apply bitrev_not_max; lia).
      unfold r. rewrite rinc_bitrev by lia. done.
    + intros s c Hs Hc. rewrite Hrd by done.
      destruct (decide (s = tz)) as [->|Hst].
      { unfold bitrev_src. fold r.
        destruct (Z.ltb_spec tz (tz + 1)), (Z.ltb_spec tz tz),
          (Z.ltb_spec r tz), (Z.ltb_spec r (tz + 1)); simpl; try lia; try done;
          f_equal; lia. }
      destruct (decide (s = r)) as [->|Hsr].
      { unfold bitrev_src. rewrite Hrr.
        destruct (Z.ltb_spec tz (tz + 1)), (Z.ltb_spec tz tz),
          (Z.ltb_spec r tz), (Z.ltb_spec r (tz + 1)); simpl; try lia; try done;
          f_equal; lia. }
      by rewrite bitrev_src_step by (done || lia).
Qed.

(** The bit-reversal section runs through its body [n] times and leaves
    the samples in bit-reversed order. *)
Lemma bit_reversal_runs fuel p d0 :
  (1 <= p)%nat → len d0 = 2 * pow2 p → 2 * pow2 p <= int_max →
  (p < fuel)%nat →
  ∃ data j i,
    loop_runs (bitrev_cond (2 * pow2 p)) (bitrev_body fuel (pow2 p))
      (d0, 1, 1) (Z.to_nat (pow2 p)) (data, j, i)
    ∧ len data = len d0
    ∧ data ≡ₚ d0
    ∧ ∀ s c, 0 <= s < pow2 p → 0 <= c <= 1 →
        rd data (2 * s + c) = rd d0 (2 * bitrev p s + c).
Proof.
  intros Hp Hlen Hmax Hfuel. pose proof (pow2_pos p) as Hpos.
  destruct (loop_runs_counted (bitrev_cond (2 * pow2 p))
              (bitrev_body fuel (pow2 p)) (bitrev_inv p d0)
              (Z.to_nat (pow2 p)) (d0, 1, 1))
    as ([[data j] i] & Hrun & Hi & _ & Hl & Hperm & Hrd).
  - unfold bitrev_inv. split_and!; try done.
    + intros _. by rewrite bitrev_0.
    + intros s c Hs Hc. unfold bitrev_src. change (Z.of_nat 0) with 0.
      destruct (Z.ltb_spec s 0); [lia|].
      pose proof (bitrev_bound p s).
      destruct (Z.ltb_spec (bitrev p s) 0); [lia|]. done.
  - intros k s Hk Hinv. apply (bitrev_body_ok fuel p d0 k s); try done. lia.
  - intros [[data j] i] (-> & _). simpl. apply Z.ltb_ge. lia.
  - exists data, j, i. split_and!; try done.
    intros s c Hs Hc. rewrite Hrd by done. unfold bitrev_src.
    destruct (Z.ltb_spec s (Z.of_nat (Z.to_nat (pow2 p)))); [done|lia].
Qed.

Lemma bit_reversal_ok fuel p d0 :
  (1 <= p)%nat → len d0 = 2 * pow2 p → 2 * pow2 p <= int_max →
  len d0 <= Z.of_nat fuel →
  ∃ data,
    bit_reversal fuel (pow2 p) (2 * pow2 p) d0 = Ok data
    ∧ len data = len d0
    ∧ data ≡ₚ d0
    ∧ ∀ s c, 0 <= s < pow2 p → 0 <= c <= 1 →
        rd data (2 * s + c) = rd d0 (2 * bitrev p s + c).
Proof.
  intros Hp Hlen Hmax Hfuel.
  pose proof (pow2_gt p) as Hgt. pose proof (pow2_pos p) as Hpos.
  destruct (bit_reversal_runs fuel p d0) as (data & j & i & Hrun & Hrest);
    [done|done|done|lia|].
  exists data. split; [|done]. unfold bit_reversal.
  rewrite (loop_runs_while _ _ _ _ _ Hrun) by lia. done.
Qed.

End BitReversal.

(** ** The Danielson-Lanczos section *)

Lemma eidx_inj h o blk b1 c o' blk' b1' c' :
  0 < h → 0 <= o < h → 0 <= o' < h →
  0 <= b1 <= 1 → 0 <= b1' <= 1 → 0 <= c <= 1 → 0 <= c' <= 1 →
  eidx h o blk b1 c = eidx h o' blk' b1' c' →
  o = o' ∧ blk = blk' ∧ b1 = b1' ∧ c = c'.
Proof.
  unfold eidx. intros Hh Ho Ho' Hb Hb' Hc Hc' Heq.
  assert (b1 + 2 * blk = b1' + 2 * blk') by nia.
  assert (o = o') by nia. lia.
Qed.

Lemma eidx_bound h nb o blk b1 c :
  0 < h → 0 <= o < h → 0 <= blk < nb → 0 <= b1 <= 1 → 0 <= c <= 1 →
  0 <= eidx h o blk b1 c < 4 * h * nb.
Proof. unfold eidx. intros. nia. Qed.


Lemma pow2_int_max p : 2 * pow2 p <= int_max → 2 * pow2 p <= 2 ^ 62.
Proof.
  intros Hmax.
  destruct (decide (S p <= 62)%nat) as [Hle|Hgt].
  - rewrite <- pow2_S. apply (pow2_le _ 62). lia.
  - pose proof (pow2_le 63 (S p) ltac:(lia)) as Hbig.
    rewrite (pow2_S p) in Hbig. unfold int_max in Hmax.
    change (pow2 63) with (2 ^ 63) in Hbig. lia.
Qed.

Lemma pow2_split p q : (q < p)%nat → 2 * pow2 q * pow2 (p - 1 - q) = pow2 p.
Proof.
  intros Hq. rewrite <- pow2_S, <- pow2_add. f_equal. lia.
Qed.

Section DanielsonLanczos.
Context {F : Type} `{Float64 F}.
Implicit Types data : list F.

Lemma len_bfly_step data wr wi a b : len (bfly_step data wr wi a b) = len data.
Proof. unfold bfly_step. by rewrite !len_upd. Qed.

Lemma rd_bfly_step data wr wi a b k :
  0 <= a → a + 1 < b → b + 1 < len data → 0 <= k →
  rd (bfly_step data wr wi a b) k =
    if decide (k = a) then (rd data a + tempr wr wi data b)%f64
    else if decide (k = a + 1) then (rd data (a + 1) + tempi wr wi data b)%f64
    else if decide (k = b) then (rd data a - tempr wr wi data b)%f64
    else if decide (k = b + 1) then (rd data (a + 1) - tempi wr wi data b)%f64
    else rd data k.
Proof.
  intros Ha Hab Hb Hk. unfold bfly_step.
  repeat case_decide; subst;
    repeat first
      [ rewrite rd_upd_eq by (rewrite ?len_upd; lia)
      | rewrite rd_upd_ne by lia ]; done.
Qed.

Lemma inner_body_ok data mmax istep wr wi i :
  1 <= i → 2 <= mmax → i + mmax < len data → len data <= 2 ^ 62 →
  0 <= istep <= 2 ^ 62 →
  inner_body mmax istep wr wi (data, i)
  = Ok (bfly_step data wr wi (i - 1) (i + mmax - 1), i + istep).
Proof.
  intros Hi Hm Hj Hlen Hstep. unfold inner_body.
  rewrite !int_add_small, !int_sub_small by int_range.
  repeat first
    [ rewrite index_ok by (rewrite ?len_upd; lia); simpl
    | rewrite store_ok by (rewrite ?len_upd; lia); simpl ].
  unfold bfly_step, tempr, tempi.
  replace (i + mmax - 1 + 1) with (i + mmax) by lia.
  replace (i - 1 + 1) with i by lia.
  repeat first
    [ rewrite rd_upd_eq by (rewrite ?len_upd; lia)
    | rewrite rd_upd_ne by lia ].
  done.
Qed.

Lemma inner_body_inv h nb o wr wi dS t s :
  0 < h → 0 < nb → 4 * h * nb <= 2 ^ 62 → len dS = 4 * h * nb →
  0 <= o < h → Z.of_nat t < nb →
  inner_inv h nb o wr wi dS t s →
  inner_cond (4 * h * nb) s = true
  ∧ ∃ s', inner_body (2 * h) (4 * h) wr wi s = Ok s'
          ∧ inner_inv h nb o wr wi dS (S t) s'.
Proof.
  intros Hh Hnb Hmax Hlen Ho Ht. destruct s as [data i].
  intros (-> & Hl & Hrd). set (tz := Z.of_nat t) in *.
  assert (Z.of_nat (S t) = tz + 1) as HSt by lia.
  assert (h * tz + h <= h * nb) as Hht by nia.
  assert (0 <= h * tz) as Hht0 by nia.
  split; [simpl; apply Z.leb_le; lia|].
  rewrite inner_body_ok by nia.
  eexists. split; [done|]. unfold inner_inv. rewrite HSt.
  split_and!; [lia|by rewrite len_bfly_step|].
  intros o' blk b1 c Ho' Hblk Hb1 Hc.
  pose proof (eidx_bound h nb o' blk b1 c Hh Ho' Hblk Hb1 Hc) as Hib.
  rewrite rd_bfly_step by nia.
  replace (2 * (o + 2 * h * tz) + 1 - 1) with (eidx h o tz 0 0)
    by (unfold eidx; lia).
  replace (eidx h o tz 0 0 + 1) with (eidx h o tz 0 1) by (unfold eidx; lia).
  replace (2 * (o + 2 * h * tz) + 1 + 2 * h - 1) with (eidx h o tz 1 0)
    by (unfold eidx; lia).
  replace (eidx h o tz 1 0 + 1) with (eidx h o tz 1 1) by (unfold eidx; lia).
  assert (∀ b1' c', 0 <= b1' <= 1 → 0 <= c' <= 1 →
            rd data (eidx h o tz b1' c') = rd dS (eidx h o tz b1' c')) as Hcur.
  { intros b1' c' Hb1' Hc'. rewrite Hrd by lia. case_decide; [lia|done]. }
  unfold tempr, tempi.
  replace (eidx h o tz 1 0 + 1) with (eidx h o tz 1 1) by (unfold eidx; lia).
  rewrite !Hcur by lia.
  destruct (decide (o' = o ∧ blk = tz)) as [[-> ->]|Hne].
  - (* one of the four entries of this turn *)
    destruct (decide (o = o ∧ tz < tz + 1)) as [_|?]; [|lia].
    unfold bfly_val, tempr, tempi.
    replace (2 * (o + 2 * h * tz)) with (eidx h o tz 0 0) by (unfold eidx; lia).
    replace (eidx h o tz 0 0 + 1) with (eidx h o tz 0 1) by (unfold eidx; lia).
    replace (2 * (o + 2 * h * tz + h)) with (eidx h o tz 1 0)
      by (unfold eidx; lia).
    replace (eidx h o tz 1 0 + 1) with (eidx h o tz 1 1) by (unfold eidx; lia).
    assert (b1 = 0 ∨ b1 = 1) as [-> | ->] by lia;
      assert (c = 0 ∨ c = 1) as [-> | ->] by lia;
      repeat case_decide; try done; unfold eidx in *; lia.
  - (* an entry of another turn *)
    assert (∀ b1' c', 0 <= b1' <= 1 → 0 <= c' <= 1 →
              eidx h o' blk b1 c ≠ eidx h o tz b1' c') as Hother.
    { intros b1' c' Hb1' Hc' Heq.
      apply eidx_inj in Heq; [|lia..]. lia. }
    pose proof (Hother 0 0 ltac:(lia) ltac:(lia)).
    pose proof (Hother 0 1 ltac:(lia) ltac:(lia)).
    pose proof (Hother 1 0 ltac:(lia) ltac:(lia)).
    pose proof (Hother 1 1 ltac:(lia) ltac:(lia)).
    rewrite !decide_False by done.
    rewrite Hrd by done.
    destruct (decide (o' = o ∧ blk < tz)) as [Hd|Hd].
    + rewrite decide_True by lia. done.
    + rewrite decide_False by lia. done.
Qed.

Lemma inner_loop_runs h nb o wr wi dS :
  0 < h → 0 < nb → 4 * h * nb <= 2 ^ 62 → len dS = 4 * h * nb →
  0 <= o < h →
  ∃ data i,
    loop_runs (inner_cond (4 * h * nb)) (inner_body (2 * h) (4 * h) wr wi)
      (dS, 2 * o + 1) (Z.to_nat nb) (data, i)
    ∧ len data = len dS
    ∧ ∀ o' blk b1 c,
        0 <= o' < h → 0 <= blk < nb → 0 <= b1 <= 1 → 0 <= c <= 1 →
        rd data (eidx h o' blk b1 c) =
          if decide (o' = o)
          then bfly_val wr wi h dS (o' + 2 * h * blk) b1 c
          else rd dS (eidx h o' blk b1 c).
Proof.
  intros Hh Hnb Hmax Hlen Ho.
  destruct (loop_runs_counted (inner_cond (4 * h * nb))
              (inner_body (2 * h) (4 * h) wr wi)
              (inner_inv h nb o wr wi dS) (Z.to_nat nb) (dS, 2 * o + 1))
    as ([data i] & Hrun & Hi & Hl & Hrd).
  - unfold inner_inv. split_and!; [lia|done|].
    intros o' blk b1 c Ho' Hblk Hb1 Hc. rewrite decide_False by lia. done.
  - intros k s Hk Hinv. apply (inner_body_inv h nb o wr wi dS k s); try done. lia.
  - intros [data i] (-> & _). simpl. apply Z.leb_gt.
    rewrite Z2Nat.id by lia. nia.
  - exists data, i. split_and!; try done.
    intros o' blk b1 c Ho' Hblk Hb1 Hc. rewrite Hrd by done.
    destruct (decide (o' = o)) as [->|Hne].
    + rewrite decide_True by lia. done.
    + rewrite decide_False by lia. done.
Qed.

Lemma bfly_val_ext wr wi h d d' o blk b1 c :
  (∀ b1' c', 0 <= b1' <= 1 → 0 <= c' <= 1 →
     rd d (eidx h o blk b1' c') = rd d' (eidx h o blk b1' c')) →
  bfly_val wr wi h d (o + 2 * h * blk) b1 c
  = bfly_val wr wi h d' (o + 2 * h * blk) b1 c.
Proof.
  intros Hext. unfold bfly_val, tempr, tempi.
  replace (2 * (o + 2 * h * blk)) with (eidx h o blk 0 0) by (unfold eidx; lia).
  replace (eidx h o blk 0 0 + 1) with (eidx h o blk 0 1) by (unfold eidx; lia).
  replace (2 * (o + 2 * h * blk + h)) with (eidx h o blk 1 0)
    by (unfold eidx; lia).
  replace (eidx h o blk 1 0 + 1) with (eidx h o blk 1 1) by (unfold eidx; lia).
  rewrite !Hext by lia. done.
Qed.

(** *** one stage *)

Lemma middle_body_inv fuel inverse h nb d0 o s :
  0 < h → 0 < nb → 4 * h * nb <= 2 ^ 62 → len d0 = 4 * h * nb →
  nb < Z.of_nat fuel → Z.of_nat o < h →
  middle_inv inverse h nb d0 o s →
  middle_cond (2 * h) s = true
  ∧ ∃ s', middle_body fuel (4 * h * nb) (2 * h) (4 * h)
            (wpr inverse (2 * h)) (wpi inverse (2 * h)) s = Ok s'
          ∧ middle_inv inverse h nb d0 (S o) s'.
Proof.
  intros Hh Hnb Hmax Hlen Hfuel Ho. destruct s as [[[data m] wr] wi].
  intros (-> & Hw & Hl & Hrd). set (oz := Z.of_nat o) in *.
  assert (Z.of_nat (S o) = oz + 1) as HSo by lia.
  split; [simpl; apply Z.ltb_lt; lia|].
  destruct (inner_loop_runs h nb oz wr wi data)
    as (data' & i & Hrun & Hl' & Hrd'); [done|done|done|lia|lia|].
  unfold middle_body.
  rewrite (loop_runs_while _ _ _ _ _ Hrun) by lia. simpl.
  rewrite int_add_small by (assert (h <= h * nb) by nia; int_range).
  eexists. split; [done|]. unfold middle_inv. rewrite HSo.
  split_and!.
  - lia.
  - simpl. by rewrite <- Hw.
  - lia.
  - intros o' blk b1 c Ho' Hblk Hb1 Hc. rewrite Hrd' by done.
    destruct (decide (o' = oz)) as [->|Hne].
    + rewrite decide_True by lia. unfold oz. rewrite Nat2Z.id, <- Hw. simpl.
      apply bfly_val_ext. intros b1' c' Hb1' Hc'.
      rewrite Hrd by lia. rewrite decide_False by lia. done.
    + rewrite Hrd by done.
      destruct (decide (o' < oz)).
      * rewrite decide_True by lia. done.
      * rewrite decide_False by lia. done.
Qed.

Lemma middle_loop_runs fuel inverse h nb d0 :
  0 < h → 0 < nb → 4 * h * nb <= 2 ^ 62 → len d0 = 4 * h * nb →
  nb < Z.of_nat fuel →
  ∃ data m wr wi,
    loop_runs (middle_cond (2 * h))
      (middle_body fuel (4 * h * nb) (2 * h) (4 * h)
         (wpr inverse (2 * h)) (wpi inverse (2 * h)))
      (d0, 1, float64 1, float64 0) (Z.to_nat h) (data, m, wr, wi)
    ∧ stage_rel inverse h nb d0 data.
Proof.
  intros Hh Hnb Hmax Hlen Hfuel.
  destruct (loop_runs_counted (middle_cond (2 * h))
              (middle_body fuel (4 * h * nb) (2 * h) (4 * h)
                 (wpr inverse (2 * h)) (wpi inverse (2 * h)))
              (middle_inv inverse h nb d0) (Z.to_nat h)
              (d0, 1, float64 1, float64 0))
    as ([[[data m] wr] wi] & Hrun & Hm & Hw & Hl & Hrd).
  - unfold middle_inv. split_and!; try done.
    intros o' blk b1 c Ho' Hblk Hb1 Hc. rewrite decide_False by lia. done.
  - intros k s Hk Hinv.
    apply (middle_body_inv fuel inverse h nb d0 k s); try done. lia.
  - intros [[[data m] wr] wi] (-> & _). simpl. apply Z.ltb_ge. lia.
  - exists data, m, wr, wi. split; [done|]. split; [done|].
    intros o blk b1 c Ho Hblk Hb1 Hc. rewrite Hrd by done.
    rewrite decide_True by lia. done.
Qed.

(** *** the stages, one after the other *)

Lemma after_stages_len inverse p q d0 d :
  after_stages inverse p q d0 d → len d = len d0.
Proof.
  revert d. induction q as [|q IH]; intros d; simpl; [by intros ->|].
  intros (d1 & H1 & Hl & _). rewrite Hl. by apply IH.
Qed.

Lemma outer_body_inv fuel inverse p d0 q s :
  (1 <= p)%nat → len d0 = 2 * pow2 p → 2 * pow2 p <= int_max →
  pow2 p <= Z.of_nat fuel → (q < p)%nat →
  outer_inv inverse p d0 q s →
  outer_cond (2 * pow2 p) s = true
  ∧ ∃ s', outer_body fuel inverse (2 * pow2 p) s = Ok s'
          ∧ outer_inv inverse p d0 (S q) s'.
Proof.
  intros Hp Hlen Hmax Hfuel Hq. destruct s as [data mmax].
  intros (-> & Hst).
  pose proof (pow2_int_max p Hmax) as Hmax'.
  pose proof (pow2_split p q Hq) as Hsplit.
  pose proof (pow2_pos q) as Hh. pose proof (pow2_pos (p - 1 - q)) as Hnb.
  pose proof (pow2_lt q p Hq) as Hqp.
  pose proof (after_stages_len _ _ _ _ _ Hst) as Hl.
  set (h := pow2 q) in *. set (nb := pow2 (p - 1 - q)) in *.
  assert (4 * h * nb = 2 * pow2 p) as Hnn by lia.
  assert (h < 2 * h * nb ∧ nb < 2 * h * nb) as [Hh' Hnb'] by nia.
  split; [simpl; apply Z.ltb_lt; lia|].
  destruct (middle_loop_runs fuel inverse h nb data)
    as (data' & m & wr & wi & Hrun & Hstage); [lia..|].
  unfold outer_body. rewrite int_shl1_small by int_range.
  rewrite <- Hnn. replace (2 * (2 * h)) with (4 * h) by lia.
  rewrite (loop_runs_while _ _ _ _ _ Hrun) by lia. simpl.
  eexists. split; [done|]. unfold outer_inv. split.
  - rewrite pow2_S. fold h. lia.
  - simpl. exists data. done.
Qed.

(** The Danielson-Lanczos section runs through its outer loop [log2 n]
    times, [mmax] being 2, 4, ..., n on entry to the turns and 2n at the
    end. *)
Lemma outer_loop_runs fuel inverse p d0 :
  (1 <= p)%nat → len d0 = 2 * pow2 p → 2 * pow2 p <= int_max →
  pow2 p <= Z.of_nat fuel →
  ∃ data,
    loop_runs (outer_cond (2 * pow2 p)) (outer_body fuel inverse (2 * pow2 p))
      (d0, 2) p (data, 2 * pow2 p)
    ∧ after_stages inverse p p d0 data.
Proof.
  intros Hp Hlen Hmax Hfuel.
  destruct (loop_runs_counted (outer_cond (2 * pow2 p))
              (outer_body fuel inverse (2 * pow2 p))
              (outer_inv inverse p d0) p (d0, 2))
    as ([data mmax] & Hrun & -> & Hst).
  - done.
  - intros k s Hk Hinv. by apply (outer_body_inv fuel inverse p d0 k s).
  - intros [data mmax] (-> & _). simpl. apply Z.ltb_ge. lia.
  - by exists data.
Qed.

Lemma danielson_lanczos_ok fuel inverse p d0 :
  (1 <= p)%nat → len d0 = 2 * pow2 p → 2 * pow2 p <= int_max →
  len d0 <= Z.of_nat fuel →
  ∃ data,
    danielson_lanczos fuel inverse (2 * pow2 p) d0 = Ok data
    ∧ after_stages inverse p p d0 data.
Proof.
  intros Hp Hlen Hmax Hfuel.
  pose proof (pow2_gt p) as Hgt. pose proof (pow2_pos p) as Hpos.
  destruct (outer_loop_runs fuel inverse p d0) as (data & Hrun & Hst);
    [done|done|done|lia|].
  exists data. split; [|done]. unfold danielson_lanczos.
  rewrite (loop_runs_while _ _ _ _ _ Hrun) by lia. done.
Qed.

(** *** the scaling of the inverse transform *)

Lemma fix_inverse_runs n d0 :
  0 <= n <= len d0 → len d0 <= int_max →
  ∃ data,
    loop_runs (scale_cond n) (scale_body (float64 1 * float64 n)%f64)
      (d0, 0) (Z.to_nat n) (data, n)
    ∧ scaled_rel n d0 data.
Proof.
  intros Hn Hmax.
  destruct (loop_runs_counted (scale_cond n)
              (scale_body (float64 1 * float64 n)%f64)
              (scale_inv n d0) (Z.to_nat n) (d0, 0))
    as ([data i] & Hrun & -> & Hl & Hrd).
  - split_and!; try done. intros k Hk. rewrite decide_False by lia. done.
  - intros t [data i] Ht (-> & Hl & Hrd).
    split; [simpl; apply Z.ltb_lt; lia|].
    unfold scale_body.
    rewrite index_ok by lia. simpl. rewrite store_ok by lia. simpl.
    rewrite int_add_small by int_range.
    eexists. split; [done|]. split_and!.
    + lia.
    + by rewrite len_upd.
    + intros k Hk. destruct (decide (k = Z.of_nat t)) as [->|Hne].
      * rewrite rd_upd_eq by lia. rewrite decide_True by lia.
        rewrite Hrd by lia. rewrite decide_False by lia. done.
      * rewrite rd_upd_ne by lia. rewrite Hrd by lia.
        destruct (decide (k < Z.of_nat t)).
        -- rewrite decide_True by lia. done.
        -- rewrite decide_False by lia. done.
  - intros [data i] (-> & _). simpl. apply Z.ltb_ge. lia.
  - exists data. rewrite Z2Nat.id in Hrun by lia. split; [done|].
    split; [done|]. intros k Hk. rewrite Hrd by done.
    destruct (decide (k < n)).
    + rewrite decide_True by lia. done.
    + rewrite decide_False by lia. done.
Qed.

Lemma fix_inverse_ok fuel n d0 :
  0 <= n <= len d0 → len d0 <= int_max → n < Z.of_nat fuel →
  ∃ data, fix_inverse fuel n d0 = Ok data ∧ scaled_rel n d0 data.
Proof.
  intros Hn Hmax Hfuel.
  destruct (fix_inverse_runs n d0) as (data & Hrun & Hsc); [done|done|].
  exists data. split; [|done]. unfold fix_inverse.
  rewrite (loop_runs_while _ _ _ _ _ Hrun) by lia. done.
Qed.

End DanielsonLanczos.

(** ** The whole transform *)

Section Transform.
Context {F : Type} `{Float64 F}.
Implicit Types data : list F.

Lemma FourierTransLL_ok fuel data inverse p :
  (1 <= p)%nat → len data = 2 * pow2 p → 2 * pow2 p <= int_max →
  len data <= Z.of_nat fuel →
  ∃ d3, FourierTransLL fuel data inverse = Ok (d3, None)
        ∧ transform_rel inverse p data d3.
Proof.
  intros Hp Hlen Hmax Hfuel. pose proof (pow2_pos p) as Hpos.
  rewrite (FourierTransLL_valid fuel data inverse p) by done.
  destruct (bit_reversal_ok fuel p data) as (d1 & -> & Hl1 & Hperm & Hrd1);
    [done..|]. simpl.
  destruct (danielson_lanczos_ok fuel inverse p d1) as (d2 & -> & Hst);
    [done|lia|done|lia|]. simpl.
  pose proof (after_stages_len _ _ _ _ _ Hst) as Hl2.
  destruct inverse.
  - destruct (fix_inverse_ok fuel (pow2 p) d2) as (d3 & -> & Hsc); [lia..|].
    simpl. exists d3. split; [done|]. by exists d1, d2.
  - simpl. exists d2. split; [done|]. by exists d1, d2.
Qed.

End Transform.

(** the checks, case by case *)
Lemma check_length_cases (ldata : Z) :
  0 <= ldata → in_int ldata →
  let n := ldata / 2 in
  let bad_length := ldata < 4 ∨ Z.odd ldata = true in
  let bad_size := n < 2 ∨ ¬ ∃ k, 0 <= k ∧ n = 2 ^ k in
  (bad_length ∧ check_length ldata = Some (InvalidLength ldata))
  ∨ (¬ bad_length ∧ bad_size ∧ check_length ldata = Some (NotPowerOfTwo n))
  ∨ (¬ bad_length ∧ ¬ bad_size ∧ check_length ldata = None).
Proof.
  intros H0 Hint n bad_length bad_size.
  assert (int_rem ldata 2 = ldata mod 2) as Hrem by (by apply int_rem2_small).
  assert (int_quot ldata 2 = n) as Hquot by (by apply int_quot2_small).
  assert (in_int n) as Hintn.
  { pose proof (Z.div_pos ldata 2 ltac:(lia) ltac:(lia)).
    pose proof (Z.div_le_upper_bound ldata 2 ldata ltac:(lia) ltac:(lia)).
    unfold n. int_range. }
  unfold check_length. rewrite Hrem, Hquot.
  destruct (Z.ltb_spec ldata 4) as [Hlt|Hge]; [left; split; [by left|done]|].
  pose proof (Zmod_odd ldata) as Hodd.
  destruct (Z.odd ldata) eqn:Ho.
  { left. split; [by right|]. rewrite Hodd. done. }
  rewrite Hodd. simpl. right.
  assert (¬ bad_length) as Hg1 by (intros [?|?]; [lia|congruence]).
  destruct (Z.ltb_spec n 2) as [Hn2|Hn2]; [left; split_and!; [done|by left|done]|].
  destruct (IsPowerOfTwo n) eqn:Hpow; simpl.
  - apply IsPowerOfTwo_true in Hpow; [|done].
    right. split_and!; [done| |done]. intros [?|Hn]; [lia|done].
  - left. split_and!; [done| |done]. right. intros Hn.
    apply IsPowerOfTwo_true in Hn; [|done]. congruence.
Qed.

Section Checks.
Context {F : Type} `{Float64 F}.
Implicit Types data : list F.

Lemma check_length_None_valid data :
  in_int (len data) → check_length (len data) = None ↔ valid_input data.
Proof.
  intros Hint. pose proof (len_nonneg data) as H0.
  destruct (check_length_cases (len data) H0 Hint)
    as [[Hb He]|[(Hg & Hb & He)|(Hg1 & Hg2 & He)]]; rewrite He.
  - split; [done|]. intros (_ & H4 & Hev & _). exfalso.
    destruct Hb as [?|Ho]; [lia|]. rewrite <- Z.negb_odd, Ho in Hev. done.
  - split; [done|]. intros (_ & H4 & Hev & k & Hk & Hn). exfalso.
    destruct Hb as [Hlt|Hb]; [|by apply Hb; exists k].
    assert (len data / 2 >= 2); [|lia].
    apply Z.le_ge, Z.div_le_lower_bound; lia.
  - split; [|done]. intros _. split_and!; [done| | |].
    + destruct (Z.ltb_spec (len data) 4); [|lia]. exfalso. apply Hg1. by left.
    + rewrite <- Z.negb_odd. destruct (Z.odd (len data)); [|done].
      exfalso. apply Hg1. by right.
    + destruct (IsPowerOfTwo (len data / 2)) eqn:Hpow.
      * apply IsPowerOfTwo_true in Hpow; [done|].
        pose proof (Z.div_pos (len data) 2 ltac:(lia) ltac:(lia)).
        pose proof (Z.div_le_upper_bound (len data) 2 (len data)
                      ltac:(lia) ltac:(lia)).
        int_range.
      * exfalso. apply Hg2. right. intros Hn.
        apply IsPowerOfTwo_true in Hn; [congruence|].
        pose proof (Z.div_pos (len data) 2 ltac:(lia) ltac:(lia)).
        pose proof (Z.div_le_upper_bound (len data) 2 (len data)
                      ltac:(lia) ltac:(lia)).
        int_range.
Qed.

Lemma FourierTransLL_valid_ok fuel data inverse :
  valid_input data → len data <= Z.of_nat fuel →
  ∃ data', FourierTransLL fuel data inverse = Ok (data', None).
Proof.
  intros (p & Hp & Hlen & Hmax)%valid_input_shape Hfuel.
  destruct (FourierTransLL_ok fuel data inverse p) as (d3 & Hrun & _);
    [done..|]. by exists d3.
Qed.

Lemma FourierTransLL_returns fuel data inverse :
  in_int (len data) → len data <= Z.of_nat fuel →
  ∃ r, FourierTransLL fuel data inverse = Ok r.
Proof.
  intros Hint Hfuel. destruct (check_length (len data)) as [e|] eqn:Hchk.
  - exists (data, Some e). by apply FourierTransLL_check_Some.
  - apply check_length_None_valid in Hchk; [|done].
    destruct (FourierTransLL_valid_ok fuel data inverse) as (d & Hd); [done..|].
    by exists (d, None).
Qed.
End Checks.

(** C2. [FourierTransLL] returns an error exactly on the invalid inputs:
    [InvalidLength] when [len(data)] is below 4 or odd; otherwise
    [NotPowerOfTwo] when [n = len(data)/2] is below 2 or not a power of two;
    otherwise the call returns [nil]: no access is out of range and every
    loop ends. *)
Theorem FourierTransLL_error_iff_invalid {F : Type} `{Float64 F}
    (fuel : nat) (data : list F) (inverse : bool) :
  in_int (len data) → len data <= Z.of_nat fuel →
  let ldata := len data in
  let n := ldata / 2 in
  let bad_length := ldata < 4 ∨ Z.odd ldata = true in
  let bad_size := n < 2 ∨ ¬ ∃ k, 0 <= k ∧ n = 2 ^ k in
  (bad_length →
     FourierTransLL fuel data inverse = Ok (data, Some (InvalidLength ldata)))
  ∧ (¬ bad_length → bad_size →
     FourierTransLL fuel data inverse = Ok (data, Some (NotPowerOfTwo n)))
  ∧ (¬ bad_length → ¬ bad_size →
     ∃ data', FourierTransLL fuel data inverse = Ok (data', None))
  ∧ ((∃ data' e, FourierTransLL fuel data inverse = Ok (data', Some e))
     ↔ ¬ valid_input data).
Proof.
  intros Hint Hfuel. cbv zeta.
  pose proof (len_nonneg data) as H0.
  pose proof (check_length_None_valid data Hint) as Hvalid.
  pose proof (check_length_cases (len data) H0 Hint) as Hcases.
  cbv zeta in Hcases.
  destruct Hcases as [[Hb He]|[(Hg & Hb & He)|(Hg1 & Hg2 & He)]].
  - pose proof (FourierTransLL_check_Some fuel data inverse _ He) as Hrun.
    split_and!; [done|done|done|]. split; [|by eauto].
    intros _ Hv. apply Hvalid in Hv. congruence.
  - pose proof (FourierTransLL_check_Some fuel data inverse _ He) as Hrun.
    split_and!; [done|done|done|]. split; [|by eauto].
    intros _ Hv. apply Hvalid in Hv. congruence.
  - apply Hvalid in He.
    destruct (FourierTransLL_valid_ok fuel data inverse He Hfuel) as (d & Hrun).
    split_and!; [done|done|by eauto|]. split; [|done].
    intros (data' & e & Hrun'). congruence.
Qed.

Lemma FourierTransLL_error_iff_invalid_witness :
  in_int (len [1; 2; 3; 4]%R) ∧ len [1; 2; 3; 4]%R <= Z.of_nat 4
  ∧ ∃ data', FourierTransLL (H := ideal) 4 [1; 2; 3; 4]%R true = Ok (data', None).
Proof.
  assert (in_int (len [1; 2; 3; 4]%R)) as Hint by (vm_compute; split; discriminate).
  assert (len [1; 2; 3; 4]%R <= Z.of_nat 4) as Hfuel by (vm_compute; discriminate).
  split; [exact Hint|]. split; [exact Hfuel|].
  destruct (FourierTransLL_error_iff_invalid 4 [1; 2; 3; 4]%R true Hint Hfuel)
    as (_ & _ & Hok & _).
  apply Hok.
  - intros [Hlt|Hodd]; [vm_compute in Hlt; discriminate|discriminate].
  - intros [Hlt|Hpow]; [vm_compute in Hlt; discriminate|].
    apply Hpow. exists 1. split; [lia|reflexivity].
Defined.

(** [bitrev p k] has the bits of [k] in the opposite order *)
Lemma bitrev_testbit p k i :
  0 <= i < Z.of_nat p →
  Z.testbit (bitrev p k) i = Z.testbit k (Z.of_nat p - 1 - i).
Proof.
  revert k i. induction p as [|p IH]; intros k i Hi; [lia|].
  change (bitrev (S p) k) with (k mod 2 * pow2 p + bitrev p (k / 2)).
  pose proof (bitrev_bound p (k / 2)) as Hx.
  pose proof (Z.mod_pos_bound k 2 ltac:(lia)) as Hb.
  apply Z.b2z_inj. rewrite !Z.testbit_spec' by lia.
  destruct (decide (i = Z.of_nat p)) as [->|Hne].
  - replace (Z.of_nat (S p) - 1 - Z.of_nat p) with 0 by lia.
    fold (pow2 p). rewrite Z.div_add_l, (Z.div_small (bitrev p (k / 2)))
      by (pose proof (pow2_pos p); lia).
    rewrite Z.pow_0_r, Z.div_1_r, Z.add_0_r. by rewrite Z.mod_mod by lia.
  - assert (pow2 p = 2 ^ (Z.of_nat p - i - 1) * 2 * 2 ^ i) as Hsplit.
    { unfold pow2.
      replace (Z.of_nat p) with ((Z.of_nat p - i - 1) + 1 + i) at 1 by lia.
      rewrite !Z.pow_add_r by lia. done. }
    rewrite Hsplit.
    replace (k mod 2 * (2 ^ (Z.of_nat p - i - 1) * 2 * 2 ^ i))
      with ((k mod 2 * 2 ^ (Z.of_nat p - i - 1) * 2) * 2 ^ i) by lia.
    rewrite Z.div_add_l by (apply Z.pow_nonzero; lia).
    rewrite Z.add_comm, Z.mod_add by lia.
    rewrite <- Z.testbit_spec' by lia. rewrite IH by lia.
    replace (Z.of_nat (S p) - 1 - i) with (Z.succ (Z.of_nat p - 1 - i)) by lia.
    rewrite <- (Z.testbit_spec' k) by lia.
    by rewrite <- Z.div2_bits by lia.
Qed.

(** C4. When the bit-reversal section is over, and before any stage of
    butterflies, the sample ([re], [im]) that was at the sample index [k] is
    at the index that has the [log2 n] bits of [k] in the opposite order;
    the section only exchanges entries: the slice is a permutation of the
    input. *)
Theorem bit_reversal_permutes {F : Type} `{Float64 F}
    (fuel : nat) (data : list F) (p : nat) :
  (1 <= p)%nat → len data = 2 * pow2 p → 2 * pow2 p <= int_max →
  len data <= Z.of_nat fuel →
  ∃ data',
    bit_reversal fuel (pow2 p) (2 * pow2 p) data = Ok data'
    ∧ (∀ inverse,
         FourierTransLL fuel data inverse =
           (d ← danielson_lanczos fuel inverse (2 * pow2 p) data';
            d ← (if inverse then fix_inverse fuel (pow2 p) d else Ok d);
            Ok (d, None)))
    ∧ data' ≡ₚ data
    ∧ ∀ k, 0 <= k < pow2 p →
        0 <= bitrev p k < pow2 p
        ∧ (∀ i, 0 <= i < Z.of_nat p →
             Z.testbit (bitrev p k) i = Z.testbit k (Z.of_nat p - 1 - i))
        ∧ data' !! Z.to_nat (2 * bitrev p k) = data !! Z.to_nat (2 * k)
        ∧ data' !! Z.to_nat (2 * bitrev p k + 1) = data !! Z.to_nat (2 * k + 1).
Proof.
  intros Hp Hlen Hmax Hfuel.
  destruct (bit_reversal_ok fuel p data) as (data' & Hrun & Hl & Hperm & Hrd);
    [done..|].
  exists data'. split_and!; [done| |done|].
  - intros inverse. rewrite (FourierTransLL_valid fuel data inverse p) by done.
    by rewrite Hrun.
  - intros k Hk. pose proof (bitrev_bound p k) as Hb.
    split_and!; [lia|lia|by intros; apply bitrev_testbit|..].
    + rewrite !lookup_rd by lia. f_equal.
      replace (2 * bitrev p k) with (2 * bitrev p k + 0) by lia.
      rewrite Hrd by lia. rewrite bitrev_invol by done. f_equal. lia.
    + rewrite !lookup_rd by lia. f_equal.
      rewrite Hrd by lia. by rewrite bitrev_invol by done.
Qed.

Lemma bit_reversal_permutes_witness :
  ∃ data',
    bit_reversal 8 (pow2 2) (2 * pow2 2) [1; 2; 3; 4; 5; 6; 7; 8]%R
      = Ok data'
    ∧ data' ≡ₚ [1; 2; 3; 4; 5; 6; 7; 8]%R.
Proof.
  destruct (bit_reversal_permutes (H := ideal) 8 [1; 2; 3; 4; 5; 6; 7; 8]%R 2)
    as (data' & Hrun & _ & Hperm & _).
  - lia.
  - reflexivity.
  - vm_compute. discriminate.
  - vm_compute. discriminate.
  - exists data'. split; [exact Hrun|exact Hperm].
Defined.

(** C9. [FourierTransLL] ends on every input; the carry loop of the
    bit-reversal section ends from every state; the outer loop of the
    Danielson-Lanczos section goes through its body [log2 n] times exactly,
    [mmax] being 2, 4, ..., n on entry to the turns, and leaves when [mmax]
    is [2 n]. *)
Theorem FourierTransLL_terminates {F : Type} `{Float64 F}
    (data : list F) (inverse : bool) :
  in_int (len data) →
  (∀ fuel, len data <= Z.of_nat fuel →
     ∃ r, FourierTransLL fuel data inverse = Ok r)
  ∧ (∀ j m, ∃ k s, loop_runs carry_cond carry_body (j, m) k s)
  ∧ (∀ p fuel (d1 : list F),
       (1 <= p)%nat → len data = 2 * pow2 p →
       len data <= Z.of_nat fuel → len d1 = len data →
       ∃ dN,
         loop_runs (outer_cond (2 * pow2 p))
           (outer_body fuel inverse (2 * pow2 p)) (d1, 2) p (dN, 2 * pow2 p)
         ∧ ∀ k, (k < p)%nat →
             ∃ dk, repeat_body k (outer_body fuel inverse (2 * pow2 p)) (d1, 2)
                   = Ok (dk, 2 * pow2 k)).
Proof.
  intros Hint. split_and!.
  - intros fuel Hfuel. by apply FourierTransLL_returns.
  - intros j m. destruct (carry_loop_ends j m) as (k & s & Hrun & _). eauto.
  - intros p fuel d1 Hp Hlen Hfuel Hl1. pose proof (pow2_pos p) as Hpos.
    assert (2 * pow2 p <= int_max) as Hmax by int_range.
    destruct (outer_loop_runs fuel inverse p d1) as (dN & Hrun & _);
      [done|lia|done|lia|].
    exists dN. split; [done|].
    intros k Hk.
    destruct (loop_counted_prefix (outer_cond (2 * pow2 p))
                (outer_body fuel inverse (2 * pow2 p))
                (outer_inv inverse p d1) p (d1, 2)) with (k := k)
      as ([dk mmax] & Hrep & -> & _); [done| |lia|by exists dk].
    intros q s Hq Hinv.
    apply (outer_body_inv fuel inverse p d1 q s); try done; lia.
Qed.

Lemma FourierTransLL_terminates_witness :
  in_int (len [1; 2; 3; 4]%R)
  ∧ ∃ r, FourierTransLL (H := ideal) 4 [1; 2; 3; 4]%R false = Ok r.
Proof.
  assert (in_int (len [1; 2; 3; 4]%R)) as Hint by (vm_compute; split; discriminate).
  split; [exact Hint|].
  destruct (FourierTransLL_terminates [1; 2; 3; 4]%R false Hint) as (Hret & _).
  apply Hret. vm_compute. discriminate.
Defined.

(** * The transform in exact arithmetic, and in binary64

    The algebraic laws of the transform are those of the field of the real
    numbers: they are proved with [float64] read as [R] (the instance
    [ideal]), rounding left out.  What the float64 program itself returns is
    stated on the instance [binary64]; there the laws hold up to rounding
    only, and the runs below show it. *)

(** ** Complex numbers, as pairs of reals *)

Section ComplexLemmas.

Local Open Scope R_scope.

Lemma cplx_eq (x y : cplx) : x.1 = y.1 → x.2 = y.2 → x = y.
Proof. destruct x, y. simpl. by intros -> ->. Qed.

Lemma cis_add a b : cis (a + b) = cmul (cis a) (cis b).
Proof.
  unfold cis, cmul. simpl. rewrite cos_plus, sin_plus. f_equal. lra.
Qed.

Lemma cis_0 : cis 0 = cone.
Proof. unfold cis, cone. by rewrite cos_0, sin_0. Qed.

Lemma cis_2PI x : cis (x + 2 * PI) = cis x.
Proof.
  unfold cis. pose proof (cos_period x 1) as Hc. pose proof (sin_period x 1) as Hs.
  simpl in Hc, Hs. rewrite Rmult_1_r in Hc, Hs. by rewrite Hc, Hs.
Qed.

Lemma cis_sgn_2PI inverse x : cis (x + sgn inverse * (2 * PI)) = cis x.
Proof.
  destruct inverse; simpl.
  - rewrite Rmult_1_l. apply cis_2PI.
  - rewrite <- (cis_2PI (x + -1 * (2 * PI))). f_equal. lra.
Qed.

Lemma cis_sgn_PI inverse x : cis (x + sgn inverse * PI) = cneg (cis x).
Proof.
  assert (cis (x + PI) = cneg (cis x)) as Hpi.
  { unfold cis, cneg. simpl. by rewrite neg_cos, neg_sin. }
  destruct inverse; simpl.
  - by rewrite Rmult_1_l.
  - rewrite <- (cis_2PI (x + -1 * PI)). rewrite <- Hpi. f_equal. lra.
Qed.

Lemma root_0 inverse N : root inverse N 0 = cone.
Proof. unfold root. rewrite Rmult_0_r. apply cis_0. Qed.

Lemma root_add inverse N k k' :
  root inverse N (k + k') = cmul (root inverse N k) (root inverse N k').
Proof. unfold root. rewrite <- cis_add, plus_IZR. f_equal. lra. Qed.

Lemma IZR_pos_neq0 (N : Z) : (0 < N)%Z → IZR N ≠ 0.
Proof. intros HN. apply not_0_IZR. lia. Qed.

Lemma root_period inverse N k : (0 < N)%Z → root inverse N (k + N) = root inverse N k.
Proof.
  intros HN. unfold root. rewrite plus_IZR.
  rewrite <- (cis_sgn_2PI inverse (sgn inverse * (2 * PI / IZR N) * IZR k)).
  f_equal. field. by apply IZR_pos_neq0.
Qed.

Lemma root_period_mul inverse N k (t : nat) :
  (0 < N)%Z → root inverse N (k + N * Z.of_nat t) = root inverse N k.
Proof.
  intros HN. induction t as [|t IH].
  - f_equal. lia.
  - replace (k + N * Z.of_nat (S t))%Z with (k + N * Z.of_nat t + N)%Z by lia.
    by rewrite root_period.
Qed.

Lemma root_half inverse h : (0 < h)%Z → root inverse (2 * h) h = cneg cone.
Proof.
  intros Hh. unfold root.
  replace (sgn inverse * (2 * PI / IZR (2 * h)) * IZR h)
    with (0 + sgn inverse * PI).
  - by rewrite cis_sgn_PI, cis_0.
  - rewrite mult_IZR. field. by apply IZR_pos_neq0.
Qed.

Lemma root_double inverse h k :
  (0 < h)%Z → root inverse (2 * h) (2 * k) = root inverse h k.
Proof.
  intros Hh. unfold root. f_equal. rewrite !mult_IZR. field.
  by apply IZR_pos_neq0.
Qed.

(** *** sums *)

Lemma cadd_0_l x : cadd czero x = x.
Proof. apply cplx_eq; simpl; lra. Qed.

Lemma cmul_1_r x : cmul x cone = x.
Proof. apply cplx_eq; simpl; lra. Qed.

Lemma cmul_1_l x : cmul cone x = x.
Proof. apply cplx_eq; simpl; lra. Qed.

Lemma cmul_0_l x : cmul czero x = czero.
Proof. apply cplx_eq; simpl; lra. Qed.

Lemma csum_ext k f g :
  (∀ t, (0 <= t < Z.of_nat k)%Z → f t = g t) → csum k f = csum k g.
Proof.
  induction k as [|k IH]; intros Hfg; [done|].
  simpl. rewrite IH, Hfg by (intros; try apply Hfg; lia). done.
Qed.

Lemma csum_add k f g :
  csum k (λ t, cadd (f t) (g t)) = cadd (csum k f) (csum k g).
Proof.
  induction k as [|k IH]; simpl.
  - apply cplx_eq; simpl; lra.
  - rewrite IH. apply cplx_eq; simpl; lra.
Qed.

Lemma csum_sub k f g :
  csum k (λ t, csub (f t) (g t)) = csub (csum k f) (csum k g).
Proof.
  induction k as [|k IH]; simpl.
  - apply cplx_eq; simpl; lra.
  - rewrite IH. apply cplx_eq; simpl; lra.
Qed.

Lemma csum_mul k w f :
  csum k (λ t, cmul w (f t)) = cmul w (csum k f).
Proof.
  induction k as [|k IH]; simpl.
  - apply cplx_eq; simpl; lra.
  - rewrite IH. apply cplx_eq; simpl; lra.
Qed.

Lemma csum_conj k f :
  csum k (λ t, cconj (f t)) = cconj (csum k f).
Proof.
  induction k as [|k IH]; simpl.
  - apply cplx_eq; simpl; lra.
  - rewrite IH. apply cplx_eq; simpl; lra.
Qed.

Lemma csum_zero k f :
  (∀ t, (0 <= t < Z.of_nat k)%Z → f t = czero) → csum k f = czero.
Proof.
  induction k as [|k IH]; intros Hf; [done|].
  simpl. rewrite IH, Hf by (intros; try apply Hf; lia). apply cadd_0_l.
Qed.

(** the terms of even and of odd index *)
Lemma csum_even_odd k f :
  csum (2 * k) f = csum k (λ t, cadd (f (2 * t)%Z) (f (2 * t + 1)%Z)).
Proof.
  induction k as [|k IH]; [done|].
  replace (2 * S k)%nat with (S (S (2 * k))) by lia.
  cbn [csum]. rewrite IH.
  replace (Z.of_nat (2 * k)) with (2 * Z.of_nat k)%Z by lia.
  replace (Z.of_nat (S (2 * k))) with (2 * Z.of_nat k + 1)%Z by lia.
  apply cplx_eq; simpl; lra.
Qed.

(** only the first term *)
Lemma csum_first k f :
  (∀ t, (0 < t < Z.of_nat (S k))%Z → f t = czero) → csum (S k) f = f 0%Z.
Proof.
  induction k as [|k IH]; intros Hf.
  - simpl. apply cadd_0_l.
  - change (csum (S (S k)) f) with (cadd (csum (S k) f) (f (Z.of_nat (S k)))).
    rewrite IH by (intros; apply Hf; lia).
    rewrite (Hf (Z.of_nat (S k))) by lia. apply cplx_eq; simpl; lra.
Qed.

End ComplexLemmas.

(** ** The rotation factors *)

Section Exact.

Lemma theta_ideal inverse mmax :
  theta (H := ideal) inverse mmax = (sgn inverse * (2 * PI / IZR mmax))%R.
Proof. unfold theta, isign, sgn. by destruct inverse. Qed.

Lemma wpr_ideal inverse mmax :
  wpr (H := ideal) inverse mmax = (cos (theta inverse mmax) - 1)%R.
Proof.
  unfold wpr. generalize (theta (H := ideal) inverse mmax). intros t. simpl.
  assert (cos t = 1 - 2 * sin (1 / 2 * t) * sin (1 / 2 * t))%R as Hcos.
  { rewrite <- cos_2a_sin. f_equal. lra. }
  lra.
Qed.

Lemma wpi_ideal inverse mmax :
  wpi (H := ideal) inverse mmax = sin (theta inverse mmax).
Proof. done. Qed.

(** The trigonometric recurrence goes through the powers of
    [e^{± i 2 π / mmax}]. *)
Lemma twiddle_ideal inverse mmax (o : nat) :
  twiddle (H := ideal) inverse mmax o = root inverse mmax (Z.of_nat o).
Proof.
  induction o as [|o IH].
  - by rewrite root_0.
  - cbn [twiddle]. rewrite IH, wpr_ideal, wpi_ideal.
    replace (Z.of_nat (S o)) with (Z.of_nat o + 1) by lia.
    rewrite root_add. unfold root at 3. rewrite Rmult_1_r, <- theta_ideal.
    unfold cmul, cis, root, cis. simpl. f_equal; lra.
Qed.

Lemma stage_rel_cx inverse h nb (d d' : list R) o blk :
  stage_rel (H := ideal) inverse h nb d d' →
  0 <= o < h → 0 <= blk < nb →
  smp d' (o + 2 * h * blk)
    = cadd (smp d (o + 2 * h * blk))
        (cmul (root inverse (2 * h) o) (smp d (o + 2 * h * blk + h)))
  ∧ smp d' (o + h + 2 * h * blk)
    = csub (smp d (o + 2 * h * blk))
        (cmul (root inverse (2 * h) o) (smp d (o + 2 * h * blk + h))).
Proof.
  intros [_ Hrd] Ho Hblk.
  pose proof (Hrd o blk 0 0 Ho Hblk ltac:(lia) ltac:(lia)) as H00.
  pose proof (Hrd o blk 0 1 Ho Hblk ltac:(lia) ltac:(lia)) as H01.
  pose proof (Hrd o blk 1 0 Ho Hblk ltac:(lia) ltac:(lia)) as H10.
  pose proof (Hrd o blk 1 1 Ho Hblk ltac:(lia) ltac:(lia)) as H11.
  rewrite twiddle_ideal, Z2Nat.id in H00, H01, H10, H11 by lia.
  unfold eidx in *. unfold smp.
  replace (2 * (o + h * 0 + 2 * h * blk) + 0) with (2 * (o + 2 * h * blk))
    in H00 by lia.
  replace (2 * (o + h * 0 + 2 * h * blk) + 1) with (2 * (o + 2 * h * blk) + 1)
    in H01 by lia.
  replace (2 * (o + h * 1 + 2 * h * blk) + 0) with (2 * (o + h + 2 * h * blk))
    in H10 by lia.
  replace (2 * (o + h * 1 + 2 * h * blk) + 1) with (2 * (o + h + 2 * h * blk) + 1)
    in H11 by lia.
  rewrite H00, H01, H10, H11.
  unfold bfly_val, tempr, tempi, cadd, csub, cmul. simpl.
  replace (2 * (o + 2 * h * blk + h) + 1) with (2 * (o + 2 * h * blk + h) + 1)
    by lia.
  split; f_equal; lra.
Qed.

(** ** The discrete Fourier transform *)

(** the Danielson-Lanczos lemma: the transform of [2 h] points from those
    of its points of even and of odd index *)
Lemma danielson_lanczos_lemma inverse h (y : Z → cplx) o :
  0 < h → 0 <= o →
  let E := csum (Z.to_nat h) (λ t, cmul (y (2 * t)) (root inverse h (t * o))) in
  let O := csum (Z.to_nat h) (λ t, cmul (y (2 * t + 1)) (root inverse h (t * o))) in
  let X l := csum (Z.to_nat (2 * h))
               (λ u, cmul (y u) (root inverse (2 * h) (u * l))) in
  cadd E (cmul (root inverse (2 * h) o) O) = X o
  ∧ csub E (cmul (root inverse (2 * h) o) O) = X (o + h).
Proof.
  intros Hh Ho E O X. subst E O X. cbv beta.
  replace (Z.to_nat (2 * h)) with (2 * Z.to_nat h)%nat by lia.
  rewrite !csum_even_odd, !csum_add, <- !csum_mul.
  split.
  - f_equal; apply csum_ext; intros t Ht.
    + f_equal. rewrite <- (root_double inverse h) by done. f_equal. lia.
    + rewrite <- (root_double inverse h) by done.
      replace ((2 * t + 1) * o) with (o + 2 * (t * o)) by lia.
      rewrite root_add. apply cplx_eq; simpl; lra.
  - rewrite <- csum_sub. rewrite <- csum_add.
    apply csum_ext; intros t Ht.
    rewrite <- (root_double inverse h) by done.
    replace (2 * t * (o + h)) with (2 * (t * o) + 2 * h * Z.of_nat (Z.to_nat t))
      by lia.
    rewrite root_period_mul by lia.
    replace ((2 * t + 1) * (o + h))
      with (o + 2 * (t * o) + h + 2 * h * Z.of_nat (Z.to_nat t)) by lia.
    rewrite root_period_mul by lia.
    rewrite !root_add, root_half by done.
    apply cplx_eq; simpl; lra.
Qed.

(** After [q] stages every block of [2^q] samples holds the transform of a
    subsequence of the input. *)
Lemma after_stages_dft inverse p (x d1 : list R) q dq :
  (q <= p)%nat →
  (∀ s, 0 <= s < pow2 p → smp d1 s = smp x (bitrev p s)) →
  after_stages (H := ideal) inverse p q d1 dq →
  ∀ b l, 0 <= b < pow2 (p - q) → 0 <= l < pow2 q →
    smp dq (b * pow2 q + l) = dft_block inverse p q x b l.
Proof.
  intros Hq Hd1. revert dq Hq.
  induction q as [|q IH]; intros dq Hq Hst b l Hb Hl.
  - simpl in Hst. subst dq. rewrite pow2_0 in Hl. assert (l = 0) as -> by lia.
    rewrite Nat.sub_0_r in Hb.
    unfold dft_block. rewrite pow2_0, Nat.sub_0_r. simpl. rewrite root_0.
    rewrite cadd_0_l, cmul_1_r.
    replace (b * 1 + 0) with b by lia. rewrite Hd1 by lia. f_equal. lia.
  - destruct Hst as (d & Hst & Hstage).
    specialize (IH d ltac:(lia) Hst).
    set (r := (p - S q)%nat) in *.
    replace (p - 1 - q)%nat with r in Hstage by lia.
    replace (p - q)%nat with (S r) in IH by lia.
    pose proof (pow2_pos q) as Hh. pose proof (pow2_pos r) as Hr.
    rewrite pow2_S in Hl.
    assert (∀ o, 0 <= o < pow2 q →
              smp d (o + 2 * pow2 q * b) = dft_block inverse p q x (2 * b) o
              ∧ smp d (o + 2 * pow2 q * b + pow2 q)
                = dft_block inverse p q x (2 * b + 1) o) as Hhalves.
    { intros o Ho. split.
      - rewrite <- IH by (rewrite ?pow2_S; lia). f_equal. lia.
      - rewrite <- IH by (rewrite ?pow2_S; lia). f_equal. lia. }
    assert (∀ o, 0 <= o < pow2 q →
              dft_block inverse p q x (2 * b) o
              = csum (Z.to_nat (pow2 q))
                  (λ t, cmul (smp x (bitrev r b + (2 * t) * pow2 r))
                          (root inverse (pow2 q) (t * o)))
              ∧ dft_block inverse p q x (2 * b + 1) o
                = csum (Z.to_nat (pow2 q))
                    (λ t, cmul (smp x (bitrev r b + (2 * t + 1) * pow2 r))
                            (root inverse (pow2 q) (t * o)))) as Hblocks.
    { intros o Ho. unfold dft_block. replace (p - q)%nat with (S r) by lia.
      rewrite bitrev_even, bitrev_odd, pow2_S.
      split; apply csum_ext; intros t Ht; do 2 f_equal; lia. }
    pose proof (λ o (Ho : 0 <= o),
                 danielson_lanczos_lemma inverse (pow2 q)
                   (λ u, smp x (bitrev r b + u * pow2 r)) o Hh Ho) as Hdl.
    cbv zeta beta in Hdl.
    unfold dft_block at 1. fold r. rewrite pow2_S.
    destruct (decide (l < pow2 q)) as [Hlo|Hhi].
    + destruct (stage_rel_cx inverse _ _ _ _ l b Hstage) as [Htop _]; [lia..|].
      replace (b * (2 * pow2 q) + l) with (l + 2 * pow2 q * b) by lia.
      rewrite Htop. destruct (Hhalves l) as [-> ->]; [lia|].
      destruct (Hblocks l) as [-> ->]; [lia|].
      destruct (Hdl l) as [-> _]; [lia|]. done.
    + destruct (stage_rel_cx inverse _ _ _ _ (l - pow2 q) b Hstage) as [_ Hbot];
        [lia..|].
      replace (b * (2 * pow2 q) + l)
        with (l - pow2 q + pow2 q + 2 * pow2 q * b) by lia.
      rewrite Hbot. destruct (Hhalves (l - pow2 q)) as [-> ->]; [lia|].
      destruct (Hblocks (l - pow2 q)) as [-> ->]; [lia|].
      destruct (Hdl (l - pow2 q)) as [_ ->]; [lia|].
      replace (l - pow2 q + pow2 q) with l by lia. done.
Qed.

(** The two sections together compute the transform, with the exponent of
    the sign of [isign]; the inverse one is then scaled. *)
Lemma transform_rel_dft inverse p (x d3 : list R) :
  transform_rel (H := ideal) inverse p x d3 →
  ∃ d2, (∀ l, 0 <= l < pow2 p → smp d2 l = dft inverse (pow2 p) x l)
        ∧ len d2 = len x
        ∧ if inverse then scaled_rel (H := ideal) (pow2 p) d2 d3 else d3 = d2.
Proof.
  intros (d1 & d2 & (Hl1 & _ & Hrd1) & Hst & Hfin).
  exists d2. split_and!; [|by rewrite (after_stages_len _ _ _ _ _ Hst)|done].
  intros l Hl.
  assert (∀ s, 0 <= s < pow2 p → smp d1 s = smp x (bitrev p s)) as Hd1.
  { intros s Hs. unfold smp.
    pose proof (Hrd1 s 0 Hs ltac:(lia)) as Hre.
    pose proof (Hrd1 s 1 Hs ltac:(lia)) as Him.
    rewrite !Z.add_0_r in Hre. by rewrite Hre, Him. }
  pose proof (after_stages_dft inverse p x d1 p d2 ltac:(lia) Hd1 Hst 0 l)
    as Hdft.
  rewrite Nat.sub_diag, pow2_0 in Hdft.
  replace l with (0 * pow2 p + l) at 1 by lia.
  rewrite Hdft by lia.
  unfold dft_block, dft. rewrite Nat.sub_diag, pow2_0.
  apply csum_ext. intros t Ht.
  do 2 f_equal. unfold bitrev. lia.
Qed.

Lemma FourierTransLL_sections {F : Type} `{Float64 F} fuel (data : list F)
    inverse p :
  (1 <= p)%nat → len data = 2 * pow2 p → 2 * pow2 p <= int_max →
  len data <= Z.of_nat fuel →
  ∃ d1 d2 d3,
    bit_reversal fuel (pow2 p) (2 * pow2 p) data = Ok d1
    ∧ danielson_lanczos fuel inverse (2 * pow2 p) d1 = Ok d2
    ∧ (if inverse then fix_inverse fuel (pow2 p) d2 else Ok d2) = Ok d3
    ∧ FourierTransLL fuel data inverse = Ok (d3, None)
    ∧ bitrev_rel p data d1
    ∧ after_stages inverse p p d1 d2
    ∧ if inverse then scaled_rel (pow2 p) d2 d3 else d3 = d2.
Proof.
  intros Hp Hlen Hmax Hfuel. pose proof (pow2_pos p) as Hpos.
  rewrite (FourierTransLL_valid fuel data inverse p) by done.
  destruct (bit_reversal_ok fuel p data) as (d1 & Hr1 & Hl1 & Hperm & Hrd1);
    [done..|].
  destruct (danielson_lanczos_ok fuel inverse p d1) as (d2 & Hr2 & Hst);
    [done|lia|done|lia|].
  pose proof (after_stages_len _ _ _ _ _ Hst) as Hl2.
  rewrite Hr1. simpl. rewrite Hr2. simpl.
  destruct inverse.
  - destruct (fix_inverse_ok fuel (pow2 p) d2) as (d3 & Hr3 & Hsc); [lia..|].
    rewrite Hr3. exists d1, d2, d3. by split_and!.
  - exists d1, d2, d2. by split_and!.
Qed.

Lemma sections_dft fuel (data : list R) inverse p :
  (1 <= p)%nat → len data = 2 * pow2 p → 2 * pow2 p <= int_max →
  len data <= Z.of_nat fuel →
  ∃ d1 d2 d3,
    bit_reversal fuel (pow2 p) (2 * pow2 p) data = Ok d1
    ∧ danielson_lanczos (H := ideal) fuel inverse (2 * pow2 p) d1 = Ok d2
    ∧ FourierTransLL (H := ideal) fuel data inverse = Ok (d3, None)
    ∧ len d2 = len data
    ∧ (∀ l, 0 <= l < pow2 p → smp d2 l = dft inverse (pow2 p) data l)
    ∧ if inverse then scaled_rel (H := ideal) (pow2 p) d2 d3 else d3 = d2.
Proof.
  intros Hp Hlen Hmax Hfuel.
  destruct (FourierTransLL_sections (H := ideal) fuel data inverse p)
    as (d1 & d2 & d3 & Hr1 & Hr2 & _ & Hrun & Hbr & Hst & Hfin); [done..|].
  destruct (transform_rel_dft inverse p data d3) as (d2' & Hdft & _ & _).
  { by exists d1, d2. }
  exists d1, d2, d3. split_and!; try done.
  - rewrite (after_stages_len _ _ _ _ _ Hst). by destruct Hbr.
  - intros l Hl.
    assert (∀ s, 0 <= s < pow2 p → smp d1 s = smp data (bitrev p s)) as Hd1.
    { destruct Hbr as (_ & _ & Hrd1). intros s Hs. unfold smp.
      pose proof (Hrd1 s 0 Hs ltac:(lia)) as Hre.
      pose proof (Hrd1 s 1 Hs ltac:(lia)) as Him.
      rewrite !Z.add_0_r in Hre. by rewrite Hre, Him. }
    pose proof (after_stages_dft inverse p data d1 p d2 ltac:(lia) Hd1 Hst 0 l)
      as Hblock.
    rewrite Nat.sub_diag, pow2_0 in Hblock.
    replace l with (0 * pow2 p + l) at 1 by lia.
    rewrite Hblock by lia.
    unfold dft_block, dft. rewrite Nat.sub_diag, pow2_0.
    apply csum_ext. intros t Ht.
    do 2 f_equal. unfold bitrev. lia.
Qed.

Lemma root_cis inverse N k :
  root inverse N k = cis (sgn inverse * (2 * PI * IZR k / IZR N))%R.
Proof. unfold root. f_equal. unfold Rdiv. lra. Qed.

Lemma root_neg inverse N k : root inverse N (- k) = cconj (root inverse N k).
Proof.
  unfold root, cis, cconj. simpl. rewrite opp_IZR.
  replace (sgn inverse * (2 * PI / IZR N) * - IZR k)%R
    with (- (sgn inverse * (2 * PI / IZR N) * IZR k))%R by lra.
  by rewrite cos_neg, sin_neg.
Qed.

End Exact.

(** ** The sign of the exponent *)

(** In binary64 the product with [isign] is exact: [theta] is the double
    [2π/mmax] itself in the inverse transform and its opposite in the direct
    one, whatever [math.Sin] is.  The widths [mmax = 2^(q+1)] with [q <= 60]
    are those of the stages of every slice that Go can hold. *)
Lemma theta_binary64 (Sin : float → float) (q : nat) :
  (q <= 60)%nat →
  let mmax := 2 * pow2 q in
  theta (H := binary64 Sin) true mmax
    = (2 * 0x1.921fb54442d18p+1 / float_of_int mmax)%float
  ∧ theta (H := binary64 Sin) false mmax
    = (- (2 * 0x1.921fb54442d18p+1 / float_of_int mmax))%float
  ∧ (0 <? theta (H := binary64 Sin) true mmax)%float = true
  ∧ (theta (H := binary64 Sin) false mmax <? 0)%float = true.
Proof.
  intros Hq.
  do 61 (destruct q as [|q]; [vm_compute; repeat split; reflexivity|]).
  lia.
Qed.

Lemma float_val_pos (m : positive) (e : Z) :
  (0 < IZR (Z.pos m) * powerRZ 2 e)%R.
Proof.
  apply Rmult_lt_0_compat; [apply IZR_lt; lia|apply powerRZ_lt; lra].
Qed.

(** [sin_table] has the values that the runs in binary64 below ask of
    [math.Sin] *)
Lemma sin_table_values :
  sin_table (-0x1.921fb54442d18p+0)%float = (-1)%float
  ∧ sin_table (-0x1.921fb54442d18p-1)%float = (-0x1.6a09e667f3bccp-1)%float.
Proof. split; reflexivity. Qed.

(** C7. The sign of the exponent.  In the float64 program [theta] is the
    double [2π/mmax] with the sign of [isign], in every stage: negative in
    the direct transform, positive in the inverse one.  In exact arithmetic
    [theta] is [∓2π/mmax], the direct transform computes
    [X[l] = Σ_k x[k] e^{-i 2π k l / n}], and the two sections of the inverse
    one compute the sum with [e^{+i 2π k l / n}]. *)
Theorem exponent_sign (Sin : float → float) (fuel : nat) (data : list R)
    (p : nat) :
  (1 <= p)%nat → len data = 2 * pow2 p → 2 * pow2 p <= int_max →
  len data <= Z.of_nat fuel →
  let n := pow2 p in
  (∀ q, (q < p)%nat →
     let mmax := 2 * pow2 q in
     theta (H := binary64 Sin) true mmax
       = (2 * 0x1.921fb54442d18p+1 / float_of_int mmax)%float
     ∧ theta (H := binary64 Sin) false mmax
       = (- (2 * 0x1.921fb54442d18p+1 / float_of_int mmax))%float
     ∧ (0 <? theta (H := binary64 Sin) true mmax)%float = true
     ∧ (theta (H := binary64 Sin) false mmax <? 0)%float = true)
  ∧ (∀ mmax,
       theta (H := ideal) false mmax = (- (2 * PI / IZR mmax))%R
       ∧ theta (H := ideal) true mmax = (2 * PI / IZR mmax)%R)
  ∧ (∃ X,
       FourierTransLL (H := ideal) fuel data false = Ok (X, None)
       ∧ ∀ l, 0 <= l < n →
           smp X l =
             csum (Z.to_nat n)
               (λ k, cmul (smp data k)
                       (cis (- (2 * PI * IZR (k * l) / IZR n))%R)))
  ∧ (∃ d1 Y,
       bit_reversal fuel n (2 * n) data = Ok d1
       ∧ danielson_lanczos (H := ideal) fuel true (2 * n) d1 = Ok Y
       ∧ ∀ l, 0 <= l < n →
           smp Y l =
             csum (Z.to_nat n)
               (λ k, cmul (smp data k)
                       (cis (2 * PI * IZR (k * l) / IZR n)%R))).
Proof.
  intros Hp Hlen Hmax Hfuel n. subst n. split_and!.
  - intros q Hq. apply theta_binary64.
    destruct (decide (q <= 60)%nat) as [|Hbig]; [done|].
    pose proof (pow2_int_max p Hmax) as Hp62.
    pose proof (pow2_le 62 p ltac:(lia)) as Hle.
    change (pow2 62) with (2 ^ 62) in Hle. lia.
  - intros mmax. rewrite !theta_ideal. unfold sgn. split; lra.
  - destruct (sections_dft fuel data false p)
      as (d1 & d2 & d3 & _ & _ & Hrun & _ & Hdft & ->); [done..|].
    exists d2. split; [done|]. intros l Hl. rewrite Hdft by done.
    unfold dft. apply csum_ext. intros k Hk. f_equal.
    rewrite root_cis. f_equal. unfold sgn. lra.
  - destruct (sections_dft fuel data true p)
      as (d1 & d2 & d3 & Hr1 & Hr2 & _ & _ & Hdft & _); [done..|].
    exists d1, d2. split_and!; [done|done|]. intros l Hl. rewrite Hdft by done.
    unfold dft. apply csum_ext. intros k Hk. f_equal.
    rewrite root_cis. f_equal. unfold sgn. lra.
Qed.

Lemma exponent_sign_witness :
  theta (H := binary64 sin_table) false 4 = (-0x1.921fb54442d18p+0)%float
  ∧ ∃ X, FourierTransLL (H := ideal) 8 [1; 2; 3; 4; 5; 6; 7; 8]%R false
           = Ok (X, None)
         ∧ ∀ l, 0 <= l < pow2 2 →
             smp X l =
               csum (Z.to_nat (pow2 2))
                 (λ k, cmul (smp [1; 2; 3; 4; 5; 6; 7; 8]%R k)
                         (cis (- (2 * PI * IZR (k * l) / IZR (pow2 2)))%R)).
Proof.
  destruct (exponent_sign sin_table 8 [1; 2; 3; 4; 5; 6; 7; 8]%R 2)
    as (Hb & _ & Hfwd & _).
  - lia.
  - reflexivity.
  - vm_compute. discriminate.
  - vm_compute. discriminate.
  - split; [|exact Hfwd].
    destruct (Hb 1%nat ltac:(lia)) as (_ & Hf & _). exact Hf.
Defined.

(** The sum [Σ_k x[k] e^{-i 2π k l / n}] for [x = (1+2i, 3+4i, 5+6i, 7+8i)]
    at [l = 3]:
    [x0 + i x1 - x2 - i x3 = -8i]. *)
Lemma dft_1_to_8_at_3 :
  csum 4 (λ k, cmul (smp [1; 2; 3; 4; 5; 6; 7; 8]%R k)
                 (cis (- (2 * PI * IZR (k * 3) / IZR 4))%R))
  = (0, -8)%R.
Proof.
  cbn [csum].
  change (smp [1; 2; 3; 4; 5; 6; 7; 8]%R (Z.of_nat 0)) with (1, 2)%R.
  change (smp [1; 2; 3; 4; 5; 6; 7; 8]%R (Z.of_nat 1)) with (3, 4)%R.
  change (smp [1; 2; 3; 4; 5; 6; 7; 8]%R (Z.of_nat 2)) with (5, 6)%R.
  change (smp [1; 2; 3; 4; 5; 6; 7; 8]%R (Z.of_nat 3)) with (7, 8)%R.
  change (Z.of_nat 0 * 3) with 0. change (Z.of_nat 1 * 3) with 3.
  change (Z.of_nat 2 * 3) with 6. change (Z.of_nat 3 * 3) with 9.
  replace (- (2 * PI * 0 / 4))%R with 0%R by lra.
  replace (- (2 * PI * 3 / 4))%R with (- (3 * (PI / 2)))%R by lra.
  replace (- (2 * PI * 6 / 4))%R with (- (PI + 2 * INR 1 * PI))%R
    by (simpl; lra).
  replace (- (2 * PI * 9 / 4))%R with (- (PI / 2 + 2 * INR 2 * PI))%R
    by (simpl; lra).
  unfold cis. rewrite !cos_neg, !sin_neg, !cos_period, !sin_period.
  rewrite cos_0, sin_0, cos_3PI2, sin_3PI2, cos_PI, sin_PI, cos_PI2, sin_PI2.
  unfold cadd, cmul, czero. simpl. f_equal; lra.
Qed.

(** In binary64 the direct transform is that sum up to rounding only.  On
    [1, 2, ..., 8] ([n = 4]) the sum at [l = 3] is [(0, -8)]; the call
    returns a real part [X[3]] of [± 2^-50], for every [math.Sin] that
    gives [-1] at [-π/2] and one of the two doubles next to [-sin(π/4)] at
    [-π/4] (the arguments are the doubles that the code computes). *)
Lemma forward_binary64_rounding :
  ∀ Sin : float → float,
    Sin (-0x1.921fb54442d18p+0)%float = (-1)%float →
    Sin (-0x1.921fb54442d18p-1)%float = (-0x1.6a09e667f3bccp-1)%float
    ∨ Sin (-0x1.921fb54442d18p-1)%float = (-0x1.6a09e667f3bcdp-1)%float →
    ∃ X re,
      FourierTransLL (H := binary64 Sin) 8 [1; 2; 3; 4; 5; 6; 7; 8]%float false
        = Ok (X, None)
      ∧ X !! 6%nat = Some re
      ∧ csum 4 (λ k, cmul (smp [1; 2; 3; 4; 5; 6; 7; 8]%R k)
                       (cis (- (2 * PI * IZR (k * 3) / IZR 4))%R))
        = (0, -8)%R
      ∧ float_val re ≠ 0%R.
Proof.
  intros Sin H2 [H4|H4].
  - exists [16; 20; -8; -0x1p-50; -4; -4; 0x1p-50; -0x1.fffffffffffffp+2]%float,
      0x1p-50%float.
    split_and!; [|done|apply dft_1_to_8_at_3|].
    + vm_compute. rewrite H2, H4. vm_compute. reflexivity.
    + unfold float_val.
      change (FloatOps.Prim2SF (0x1p-50))
        with (SpecFloat.S754_finite false 4503599627370496 (-102)).
      pose proof (float_val_pos 4503599627370496 (-102)). lra.
  - exists [16; 20; -0x1.fffffffffffffp+2; 0x1p-50; -4; -4; -0x1p-50; -8]%float,
      (-0x1p-50)%float.
    split_and!; [|done|apply dft_1_to_8_at_3|].
    + vm_compute. rewrite H2, H4. vm_compute. reflexivity.
    + unfold float_val.
      change (FloatOps.Prim2SF (-0x1p-50))
        with (SpecFloat.S754_finite true 4503599627370496 (-102)).
      pose proof (float_val_pos 4503599627370496 (-102)). lra.
Qed.

(** The same run with [math.Sin] rounded to the nearest double: the call
    on [1, 2, ..., 8] returns [X[3] = (2^-50, -8 + 2^-50)] (about
    [(8.9e-16, -7.9999999999999991)]), where the sum is [(0, -8)]. *)
Lemma forward_not_exact_binary64 :
  FourierTransLL (H := binary64 sin_table) 8 [1; 2; 3; 4; 5; 6; 7; 8]%float false
    = Ok ([16; 20; -8; -0x1p-50; -4; -4; 0x1p-50; -0x1.fffffffffffffp+2]%float,
          None)
  ∧ csum 4 (λ k, cmul (smp [1; 2; 3; 4; 5; 6; 7; 8]%R k)
                   (cis (- (2 * PI * IZR (k * 3) / IZR 4))%R))
    = (0, -8)%R
  ∧ float_val 0x1p-50 ≠ 0%R.
Proof.
  split_and!.
  - vm_compute. reflexivity.
  - apply dft_1_to_8_at_3.
  - unfold float_val.
    change (FloatOps.Prim2SF (0x1p-50))
      with (SpecFloat.S754_finite false 4503599627370496 (-102)).
    pose proof (float_val_pos 4503599627370496 (-102)). lra.
Qed.

(** ** Real input *)

(** C8. In exact arithmetic the direct transform of an input that is real
    (every imaginary part is 0) is conjugate-symmetric: [X[n-k]] is the
    conjugate of [X[k]] for [k = 1 .. n-1]. *)
Theorem real_input_conjugate_symmetric (fuel : nat) (data : list R) (p : nat) :
  (1 <= p)%nat → len data = 2 * pow2 p → 2 * pow2 p <= int_max →
  len data <= Z.of_nat fuel →
  (∀ k, 0 <= k < pow2 p → data !! Z.to_nat (2 * k + 1) = Some 0%R) →
  ∃ X,
    FourierTransLL (H := ideal) fuel data false = Ok (X, None)
    ∧ ∀ k, 1 <= k <= pow2 p - 1 →
        smp X (pow2 p - k) = cconj (smp X k).
Proof.
  intros Hp Hlen Hmax Hfuel Hreal. pose proof (pow2_pos p) as Hpos.
  destruct (sections_dft fuel data false p)
    as (d1 & d2 & d3 & _ & _ & Hrun & _ & Hdft & ->); [done..|].
  exists d2. split; [done|]. intros k Hk.
  rewrite !Hdft by lia. unfold dft.
  rewrite <- csum_conj. apply csum_ext. intros j Hj.
  replace (j * (pow2 p - k)) with (- (j * k) + pow2 p * Z.of_nat (Z.to_nat j))
    by lia.
  rewrite root_period_mul, root_neg by done.
  assert ((smp data j).2 = 0%R) as Him.
  { unfold smp, rd. simpl. by rewrite Hreal by lia. }
  destruct (smp data j) as [xr xi]. simpl in Him. subst xi.
  apply cplx_eq; simpl; lra.
Qed.

Lemma real_input_conjugate_symmetric_witness :
  ∃ X,
    FourierTransLL (H := ideal) 8 [1; 0; 2; 0; 3; 0; 4; 0]%R false = Ok (X, None)
    ∧ ∀ k, 1 <= k <= pow2 2 - 1 → smp X (pow2 2 - k) = cconj (smp X k).
Proof.
  apply (real_input_conjugate_symmetric 8 [1; 0; 2; 0; 3; 0; 4; 0]%R 2).
  - lia.
  - reflexivity.
  - vm_compute. discriminate.
  - vm_compute. discriminate.
  - intros k Hk. change (pow2 2) with 4 in Hk.
    assert (k = 0 ∨ k = 1 ∨ k = 2 ∨ k = 3) as [->|[->|[->| ->]]] by lia;
      reflexivity.
Defined.

(** In binary64 the symmetry holds up to rounding only.  On the real input
    [0, 0, 1, 0, 0, 0, 0, 0] ([n = 4], [x[1] = 1]) the call returns the real
    parts [± 2^-52] for [X[1]] and [∓ 2^-52] for [X[3]], where conjugates
    have the same real part; this for every [math.Sin] that gives [-1] at
    [-π/2] and one of the two doubles next to [-sin(π/4)] at [-π/4]. *)
Lemma real_input_binary64_rounding :
  ∀ Sin : float → float,
    Sin (-0x1.921fb54442d18p+0)%float = (-1)%float →
    Sin (-0x1.921fb54442d18p-1)%float = (-0x1.6a09e667f3bccp-1)%float
    ∨ Sin (-0x1.921fb54442d18p-1)%float = (-0x1.6a09e667f3bcdp-1)%float →
    ∃ X re1 re3,
      FourierTransLL (H := binary64 Sin) 8 [0; 0; 1; 0; 0; 0; 0; 0]%float false
        = Ok (X, None)
      ∧ X !! 2%nat = Some re1 ∧ X !! 6%nat = Some re3
      ∧ float_val re3 ≠ float_val re1.
Proof.
  intros Sin H2 [H4|H4].
  - exists [1; 0; 0x1p-52; -1; -1; 0; -0x1p-52; 1]%float,
      0x1p-52%float, (-0x1p-52)%float.
    split_and!; [|done|done|].
    + vm_compute. rewrite H2, H4. vm_compute. reflexivity.
    + unfold float_val.
      change (FloatOps.Prim2SF (-0x1p-52))
        with (SpecFloat.S754_finite true 4503599627370496 (-104)).
      change (FloatOps.Prim2SF (0x1p-52))
        with (SpecFloat.S754_finite false 4503599627370496 (-104)).
      pose proof (float_val_pos 4503599627370496 (-104)). lra.
  - exists [1; 0; -0x1p-52; -1; -1; 0; 0x1p-52; 1]%float,
      (-0x1p-52)%float, (0x1p-52)%float.
    split_and!; [|done|done|].
    + vm_compute. rewrite H2, H4. vm_compute. reflexivity.
    + unfold float_val.
      change (FloatOps.Prim2SF (-0x1p-52))
        with (SpecFloat.S754_finite true 4503599627370496 (-104)).
      change (FloatOps.Prim2SF (0x1p-52))
        with (SpecFloat.S754_finite false 4503599627370496 (-104)).
      pose proof (float_val_pos 4503599627370496 (-104)). lra.
Qed.

(** The same run with [math.Sin] rounded to the nearest double: the call
    on the real input [0, 0, 1, 0, 0, 0, 0, 0] returns [X[1] = (2^-52, -1)]
    and [X[3] = (-2^-52, 1)]; the conjugate of [X[1]] is [(2^-52, 1)]. *)
Lemma real_input_not_symmetric_binary64 :
  FourierTransLL (H := binary64 sin_table) 8 [0; 0; 1; 0; 0; 0; 0; 0]%float false
    = Ok ([1; 0; 0x1p-52; -1; -1; 0; -0x1p-52; 1]%float, None)
  ∧ float_val (-0x1p-52) ≠ float_val 0x1p-52.
Proof.
  split.
  - vm_compute. reflexivity.
  - unfold float_val.
    change (FloatOps.Prim2SF (-0x1p-52))
      with (SpecFloat.S754_finite true 4503599627370496 (-104)).
    change (FloatOps.Prim2SF (0x1p-52))
      with (SpecFloat.S754_finite false 4503599627370496 (-104)).
    pose proof (float_val_pos 4503599627370496 (-104)). lra.
Qed.

(** ** The unit impulse *)

Lemma len_impulse n : (1 <= n)%nat → len (impulse n) = 2 * Z.of_nat n.
Proof. intros Hn. unfold len, impulse. simpl. rewrite length_replicate. lia. Qed.

Lemma len_ones n : len (ones n) = 2 * Z.of_nat n.
Proof. unfold len. induction n as [|n IH]; simpl in *; lia. Qed.

Lemma lookup_ones n s :
  (s < n)%nat →
  ones n !! (2 * s)%nat = Some 1%R ∧ ones n !! (2 * s + 1)%nat = Some 0%R.
Proof.
  revert s. induction n as [|n IH]; intros s Hs; [lia|].
  destruct s as [|s]; [done|].
  replace (2 * S s)%nat with (S (S (2 * s))) by lia.
  replace (S (S (2 * s)) + 1)%nat with (S (S (2 * s + 1))) by lia.
  simpl. apply IH. lia.
Qed.

Lemma smp_ones n s : 0 <= s < Z.of_nat n → smp (ones n) s = cone.
Proof.
  intros Hs. destruct (lookup_ones n (Z.to_nat s)) as [Hre Him]; [lia|].
  unfold smp, rd, cone.
  replace (Z.to_nat (2 * s)) with (2 * Z.to_nat s)%nat by lia.
  replace (Z.to_nat (2 * s + 1)) with (2 * Z.to_nat s + 1)%nat by lia.
  by rewrite Hre, Him.
Qed.

Lemma rd_impulse n i : 0 < i → rd (impulse n) i = 0%R.
Proof.
  intros Hi. unfold rd, impulse.
  destruct (Z.to_nat i) as [|i'] eqn:Hi'; [lia|]. simpl.
  destruct (replicate _ _ !! i') as [x|] eqn:Hl; [|done].
  by apply lookup_replicate in Hl as [-> _].
Qed.

Lemma smp_impulse_0 n : smp (impulse n) 0 = cone.
Proof. unfold smp. rewrite (rd_impulse n (2 * 0 + 1)) by lia. done. Qed.

Lemma smp_impulse_pos n s : 0 < s → smp (impulse n) s = czero.
Proof. intros Hs. unfold smp. by rewrite !rd_impulse by lia. Qed.

Lemma smp_ext (d d' : list R) n :
  len d = 2 * n → len d' = 2 * n →
  (∀ s, 0 <= s < n → smp d s = smp d' s) → d = d'.
Proof.
  intros Hl Hl' Hsmp. apply rd_ext; [lia|]. intros i Hi.
  pose proof (Z.div_mod i 2 ltac:(lia)) as Hdm.
  pose proof (Z.mod_pos_bound i 2 ltac:(lia)) as Hm.
  specialize (Hsmp (i / 2) ltac:(lia)). unfold smp in Hsmp.
  injection Hsmp as Hre Him.
  assert (i mod 2 = 0 ∨ i mod 2 = 1) as [H0|H1] by lia.
  - by replace i with (2 * (i / 2)) by lia.
  - by replace i with (2 * (i / 2) + 1) by lia.
Qed.

(** In exact arithmetic the direct transform of the unit impulse is
    [1, 0, 1, 0, ..., 1, 0]. *)
Lemma impulse_forward_exact (fuel p : nat) :
  (1 <= p)%nat → 2 * pow2 p <= int_max → 2 * pow2 p <= Z.of_nat fuel →
  FourierTransLL (H := ideal) fuel (impulse (Z.to_nat (pow2 p))) false
  = Ok (ones (Z.to_nat (pow2 p)), None).
Proof.
  intros Hp Hmax Hfuel. pose proof (pow2_pos p) as Hpos.
  set (n := Z.to_nat (pow2 p)).
  assert (len (impulse n) = 2 * pow2 p) as Hlen
    by (rewrite len_impulse by lia; lia).
  destruct (sections_dft fuel (impulse n) false p)
    as (d1 & d2 & d3 & _ & _ & Hrun & Hl2 & Hdft & ->); [done|done|done|lia|].
  rewrite Hrun. do 2 f_equal.
  apply (smp_ext _ _ (pow2 p)); [lia|rewrite len_ones; lia|].
  intros s Hs. rewrite Hdft, smp_ones by lia.
  unfold dft. fold n. destruct n as [|m] eqn:Hn; [lia|].
  rewrite csum_first.
  - by rewrite smp_impulse_0, root_0, cmul_1_r.
  - intros t Ht. by rewrite smp_impulse_pos, cmul_0_l by lia.
Qed.

(** *** the unit impulse in any arithmetic

    In the transform of the unit impulse every butterfly has the sample
    (0, 0) as its upper sample [j]: [tempr] and [tempi] are made of products
    of the rotation factor with 0.  The stages are followed in an arithmetic
    in which such products are in a class [Zr] of zeros that sums and
    differences do not leave and that 1 and 0 absorb. *)

Section ImpulseStages.
Context {F : Type} `{Float64 F}.
Variable Zr : F → Prop.
Hypothesis Zr_add : ∀ z z', Zr z → Zr z' → Zr (z + z')%f64.
Hypothesis Zr_sub : ∀ z z', Zr z → Zr z' → Zr (z - z')%f64.
Hypothesis one_add : ∀ z, Zr z → (float64 1 + z)%f64 = float64 1.
Hypothesis one_sub : ∀ z, Zr z → (float64 1 - z)%f64 = float64 1.
Hypothesis zero_add : ∀ z, Zr z → (float64 0 + z)%f64 = float64 0.
Hypothesis zero_sub : ∀ z, Zr z → (float64 0 - z)%f64 = float64 0.








End ImpulseStages.

(** *** the unit impulse in binary64 *)





(** ** The scaling of the inverse transform, in binary64 *)

(** C1. With [inverse == true] the slice is scaled once the stages are
    over, with [inverse == false] it is not.  On [1, 0, 0, 0] ([n = 2])
    both directions leave [1, 0, 1, 0] after the stages; the inverse call
    then multiplies the entries 0 and 1 by [n], and leaves the entries 2
    and 3 as they are: the loop stops at [n], not at [2 n]. *)
Theorem inverse_scales_first_half (Sin : float → float) :
  FourierTransLL (H := binary64 Sin) 4 [1; 0; 0; 0]%float false
    = Ok ([1; 0; 1; 0]%float, None)
  ∧ FourierTransLL (H := binary64 Sin) 4 [1; 0; 0; 0]%float true
    = Ok ([2; 0; 1; 0]%float, None).
Proof. split; vm_compute; reflexivity. Qed.

(** C5. The direct transform followed by the inverse one: [1, 2, 3, 4]
    ([n = 2]) becomes [4, 6, -2, -2] and then [4, 8, 6, 8]; the first sample
    is scaled by 4, the second one by 2. *)
Theorem round_trip_two_factors (Sin : float → float) :
  FourierTransLL (H := binary64 Sin) 4 [1; 2; 3; 4]%float false
    = Ok ([4; 6; -2; -2]%float, None)
  ∧ FourierTransLL (H := binary64 Sin) 4 [4; 6; -2; -2]%float true
    = Ok ([4; 8; 6; 8]%float, None).
Proof. split; vm_compute; reflexivity. Qed.

(** * Further properties of the code *)

(** ** [Swap], the checks and the sections, for every arithmetic *)

(** X1. [Swap] on two entries of a slice exchanges them and leaves every
    other entry and the length as they are; a second [Swap] of the same two
    entries gives the slice back. *)
Theorem Swap_exchanges {F : Type} `{Float64 F} (data : list F) (a b : Z) :
  0 <= a < len data → 0 <= b < len data →
  ∃ data',
    Swap data a b = Ok data'
    ∧ len data' = len data
    ∧ data' !! Z.to_nat a = data !! Z.to_nat b
    ∧ data' !! Z.to_nat b = data !! Z.to_nat a
    ∧ (∀ k : nat, k ≠ Z.to_nat a → k ≠ Z.to_nat b → data' !! k = data !! k)
    ∧ Swap data' a b = Ok data.
Proof.
  intros Ha Hb. exists (swap_at data a b).
  pose proof (len_swap_at data a b) as Hl.
  split_and!; [by apply Swap_ok|done|..].
  - rewrite !lookup_rd by lia. f_equal. rewrite rd_swap_at by lia.
    repeat case_decide; congruence.
  - rewrite !lookup_rd by lia. f_equal. rewrite rd_swap_at by lia.
    repeat case_decide; congruence.
  - intros k Hka Hkb. unfold swap_at, upd.
    by rewrite !list_lookup_insert_ne by done.
  - rewrite Swap_ok by lia. f_equal. apply rd_ext; [by rewrite len_swap_at|].
    intros i Hi. rewrite len_swap_at in Hi.
    rewrite rd_swap_at by (rewrite ?len_swap_at; lia).
    rewrite !rd_swap_at by lia.
    repeat case_decide; congruence.
Qed.

Lemma Swap_exchanges_witness :
  ∃ data', Swap [1; 2; 3]%R 0 2 = Ok data' ∧ Swap data' 0 2 = Ok [1; 2; 3]%R.
Proof.
  destruct (Swap_exchanges (H := ideal) [1; 2; 3]%R 0 2)
    as (data' & Hrun & _ & _ & _ & _ & Hback).
  - vm_compute. split; [discriminate|reflexivity].
  - vm_compute. split; [discriminate|reflexivity].
  - exists data'. split; [exact Hrun|exact Hback].
Defined.

(** X2. The bit-reversal section undoes itself: run on its own result it
    gives the input back. *)
Theorem bit_reversal_involutive {F : Type} `{Float64 F}
    (fuel : nat) (data : list F) (p : nat) :
  (1 <= p)%nat → len data = 2 * pow2 p → 2 * pow2 p <= int_max →
  len data <= Z.of_nat fuel →
  ∃ data',
    bit_reversal fuel (pow2 p) (2 * pow2 p) data = Ok data'
    ∧ bit_reversal fuel (pow2 p) (2 * pow2 p) data' = Ok data.
Proof.
  intros Hp Hlen Hmax Hfuel.
  destruct (bit_reversal_ok fuel p data) as (d1 & Hr1 & Hl1 & _ & Hrd1);
    [done..|].
  destruct (bit_reversal_ok fuel p d1) as (d2 & Hr2 & Hl2 & _ & Hrd2);
    [done|lia|done|lia|].
  exists d1. split; [done|]. rewrite Hr2. f_equal.
  apply rd_ext; [lia|]. intros i Hi.
  pose proof (Z.div_mod i 2 ltac:(lia)) as Hdm.
  pose proof (Z.mod_pos_bound i 2 ltac:(lia)) as Hm.
  assert (0 <= i / 2 < pow2 p) as Hs by lia.
  pose proof (bitrev_bound p (i / 2)) as Hb.
  replace i with (2 * (i / 2) + i mod 2) by lia.
  rewrite Hrd2, Hrd1 by lia. by rewrite bitrev_invol by done.
Qed.

Lemma bit_reversal_involutive_witness :
  ∃ data',
    bit_reversal 8 (pow2 2) (2 * pow2 2) [1; 2; 3; 4; 5; 6; 7; 8]%R = Ok data'
    ∧ bit_reversal 8 (pow2 2) (2 * pow2 2) data'
      = Ok [1; 2; 3; 4; 5; 6; 7; 8]%R.
Proof.
  apply (bit_reversal_involutive (H := ideal) 8 [1; 2; 3; 4; 5; 6; 7; 8]%R 2).
  - lia.
  - reflexivity.
  - vm_compute. discriminate.
  - vm_compute. discriminate.
Defined.

(** X3. The error that [FourierTransLL] returns carries the length it
    objects to: [InvalidLength] carries [len(data)]; [NotPowerOfTwo] carries
    [n = len(data)/2], and then [n >= 3]: after the first check the test
    [n < 2] of the second one never holds. *)
Theorem error_arguments {F : Type} `{Float64 F}
    (fuel : nat) (data data' : list F) (inverse : bool) (e : error) :
  in_int (len data) →
  FourierTransLL fuel data inverse = Ok (data', Some e) →
  (e = InvalidLength (len data)
   ∧ (len data < 4 ∨ Z.odd (len data) = true))
  ∨ (e = NotPowerOfTwo (len data / 2)
     ∧ 3 <= len data / 2 ∧ len data = 2 * (len data / 2)).
Proof.
  intros Hint Hrun. pose proof (len_nonneg data) as H0.
  pose proof (check_length_cases (len data) H0 Hint) as Hcases.
  cbv zeta in Hcases.
  destruct Hcases as [[Hb He]|[(Hg & Hb & He)|(Hg1 & Hg2 & He)]].
  - rewrite (FourierTransLL_check_Some fuel data inverse _ He) in Hrun.
    injection Hrun as _ <-. by left.
  - rewrite (FourierTransLL_check_Some fuel data inverse _ He) in Hrun.
    injection Hrun as _ <-. right. split; [done|].
    assert (4 <= len data) as H4.
    { destruct (Z.ltb_spec (len data) 4); [|done]. destruct Hg. by left. }
    assert (Z.odd (len data) = false) as Hodd.
    { destruct (Z.odd (len data)) eqn:Ho; [|done]. destruct Hg. by right. }
    pose proof (Zmod_odd (len data)) as Hmod. rewrite Hodd in Hmod.
    pose proof (Z.div_mod (len data) 2 ltac:(lia)) as Hdm.
    split; [|lia].
    destruct Hb as [Hlt|Hnp]; [lia|].
    destruct (decide (len data / 2 = 2)) as [H2|Hne]; [|lia].
    destruct Hnp. exists 1. split; [lia|]. by rewrite H2.
  - by apply (FourierTransLL_check_None fuel data inverse _ He) in Hrun.
Qed.

Lemma error_arguments_witness :
  (NotPowerOfTwo 3 = InvalidLength (len [1; 2; 3; 4; 5; 6]%R)
   ∧ (len [1; 2; 3; 4; 5; 6]%R < 4 ∨ Z.odd (len [1; 2; 3; 4; 5; 6]%R) = true))
  ∨ (NotPowerOfTwo 3 = NotPowerOfTwo (len [1; 2; 3; 4; 5; 6]%R / 2)
     ∧ 3 <= len [1; 2; 3; 4; 5; 6]%R / 2
     ∧ len [1; 2; 3; 4; 5; 6]%R = 2 * (len [1; 2; 3; 4; 5; 6]%R / 2)).
Proof.
  apply (error_arguments (H := ideal) 0 [1; 2; 3; 4; 5; 6]%R
           [1; 2; 3; 4; 5; 6]%R false (NotPowerOfTwo 3)).
  - vm_compute. split; discriminate.
  - reflexivity.
Defined.

(** X4. [FourierTransLL] accepts a slice exactly when its length itself is
    a power of two and at least 4. *)
Theorem accepts_power_of_two_lengths {F : Type} `{Float64 F}
    (fuel : nat) (data : list F) (inverse : bool) :
  in_int (len data) → len data <= Z.of_nat fuel →
  (∃ data', FourierTransLL fuel data inverse = Ok (data', None))
  ↔ 4 <= len data ∧ IsPowerOfTwo (len data) = true.
Proof.
  intros Hint Hfuel. split.
  - intros (data' & Hrun).
    destruct (check_length (len data)) as [e|] eqn:Hchk.
    { rewrite (FourierTransLL_check_Some fuel data inverse e Hchk) in Hrun.
      congruence. }
    apply check_length_None_valid in Hchk; [|done].
    apply valid_input_shape in Hchk as (p & Hp & Hlen & Hmax).
    pose proof (pow2_ge_2 p Hp). split; [lia|].
    apply IsPowerOfTwo_true; [done|].
    exists (Z.of_nat (S p)). split; [lia|].
    rewrite Hlen, <- pow2_S. done.
  - intros [H4 Hpow]. apply IsPowerOfTwo_true in Hpow as (k & Hk & Hlen); [|done].
    apply FourierTransLL_valid_ok; [|done].
    apply valid_input_shape.
    assert (2 <= k) as Hk2.
    { destruct (Z.ltb_spec k 2) as [Hlt|]; [|done].
      assert (k = 0 ∨ k = 1) as [-> | ->] by lia; simpl in Hlen; lia. }
    exists (Z.to_nat (k - 1)). split_and!; [lia| |].
    + rewrite Hlen, <- pow2_S, pow2_of_Z by lia. f_equal. lia.
    + rewrite <- pow2_S.
      replace (pow2 (S (Z.to_nat (k - 1)))) with (len data);
        [unfold in_int in Hint; lia|].
      rewrite Hlen, pow2_of_Z by lia. f_equal. lia.
Qed.

Lemma accepts_power_of_two_lengths_witness :
  (∃ data', FourierTransLL (H := ideal) 4 [1; 2; 3; 4]%R true = Ok (data', None))
  ↔ 4 <= len [1; 2; 3; 4]%R ∧ IsPowerOfTwo (len [1; 2; 3; 4]%R) = true.
Proof.
  apply (accepts_power_of_two_lengths (H := ideal) 4 [1; 2; 3; 4]%R true).
  - vm_compute. split; discriminate.
  - vm_compute. discriminate.
Defined.

(** X5. What a call makes of the result of its two sections: with
    [inverse == false] it returns it as it is; with [inverse == true] it
    returns it with the entries [0 .. n-1] multiplied by [1.0 * float64(n)]
    and the entries [n .. 2n-1] as they are.  The length is kept. *)
Theorem call_after_sections {F : Type} `{Float64 F}
    (fuel : nat) (data : list F) (inverse : bool) (p : nat) :
  (1 <= p)%nat → len data = 2 * pow2 p → 2 * pow2 p <= int_max →
  len data <= Z.of_nat fuel →
  ∃ d1 Y Z,
    bit_reversal fuel (pow2 p) (2 * pow2 p) data = Ok d1
    ∧ danielson_lanczos fuel inverse (2 * pow2 p) d1 = Ok Y
    ∧ FourierTransLL fuel data inverse = Ok (Z, None)
    ∧ length Z = length data
    ∧ if inverse then
        ∀ i y, Y !! i = Some y →
          Z !! i = Some (if decide (Z.of_nat i < pow2 p)
                         then (y * (float64 1 * float64 (pow2 p)))%f64
                         else y)
      else Z = Y.
Proof.
  intros Hp Hlen Hmax Hfuel.
  destruct (FourierTransLL_sections fuel data inverse p)
    as (d1 & d2 & d3 & Hr1 & Hr2 & _ & Hrun & Hbr & Hst & Hfin); [done..|].
  pose proof (after_stages_len _ _ _ _ _ Hst) as Hl2.
  destruct Hbr as (Hl1 & _ & _).
  exists d1, d2, d3. split_and!; [done|done|done|..].
  - destruct inverse; [destruct Hfin as [Hl3 _]|subst d3];
      unfold len in *; lia.
  - destruct inverse; [|done]. destruct Hfin as [Hl3 Hrd].
    intros i y Hy. pose proof (lookup_lt_Some _ _ _ Hy) as Hi.
    specialize (Hrd (Z.of_nat i) ltac:(unfold len; lia)).
    pose proof (lookup_rd d3 (Z.of_nat i) ltac:(unfold len in *; lia)) as H3.
    pose proof (lookup_rd d2 (Z.of_nat i) ltac:(unfold len in *; lia)) as H2.
    rewrite Nat2Z.id in H3, H2. rewrite H2 in Hy. injection Hy as <-.
    rewrite H3, Hrd. by case_decide.
Qed.

Lemma call_after_sections_witness :
  ∃ d1 Y Z,
    bit_reversal 4 (pow2 1) (2 * pow2 1) [1; 2; 3; 4]%R = Ok d1
    ∧ danielson_lanczos (H := ideal) 4 true (2 * pow2 1) d1 = Ok Y
    ∧ FourierTransLL (H := ideal) 4 [1; 2; 3; 4]%R true = Ok (Z, None)
    ∧ length Z = length [1; 2; 3; 4]%R.
Proof.
  destruct (call_after_sections (H := ideal) 4 [1; 2; 3; 4]%R true 1)
    as (d1 & Y & Z & H1 & H2 & H3 & H4 & _).
  - lia.
  - reflexivity.
  - vm_compute. discriminate.
  - vm_compute. discriminate.
  - exists d1, Y, Z. split; [exact H1|]. split; [exact H2|].
    split; [exact H3|exact H4].
Defined.

(** ** More on sums and on the roots of unity *)

Section MoreSums.
Local Open Scope R_scope.

Lemma cmul_assoc x y z : cmul (cmul x y) z = cmul x (cmul y z).
Proof. apply cplx_eq; simpl; ring. Qed.

Lemma cmul_comm x y : cmul x y = cmul y x.
Proof. apply cplx_eq; simpl; ring. Qed.

Lemma cmul_0_r x : cmul x czero = czero.
Proof. apply cplx_eq; simpl; ring. Qed.

Lemma csum_mul_r k w f :
  csum k (λ t, cmul (f t) w) = cmul (csum k f) w.
Proof.
  rewrite cmul_comm, <- csum_mul. apply csum_ext. intros. apply cmul_comm.
Qed.

Lemma csum_swap m n (f : Z → Z → cplx) :
  csum m (λ l, csum n (λ k, f l k)) = csum n (λ k, csum m (λ l, f l k)).
Proof.
  induction m as [|m IH]; simpl.
  - symmetry. by apply csum_zero.
  - rewrite IH. by rewrite csum_add.
Qed.

(** only one term *)
Lemma csum_single k f m :
  (0 <= m < Z.of_nat k)%Z →
  (∀ t, (0 <= t < Z.of_nat k)%Z → t ≠ m → f t = czero) →
  csum k f = f m.
Proof.
  induction k as [|k IH]; intros Hm Hf; [lia|].
  simpl. destruct (decide (m = Z.of_nat k)) as [->|Hne].
  - rewrite csum_zero; [apply cadd_0_l|]. intros t Ht. apply Hf; lia.
  - rewrite IH by (try lia; intros; apply Hf; lia).
    rewrite (Hf (Z.of_nat k)) by lia. apply cplx_eq; simpl; lra.
Qed.

Lemma csum_const k z : csum k (λ _, z) = cmul (creal (INR k)) z.
Proof.
  induction k as [|k IH].
  - simpl. apply cplx_eq; simpl; lra.
  - cbn [csum]. rewrite IH, S_INR. apply cplx_eq; simpl; lra.
Qed.

Lemma root_false_true N k : root false N k = root true N (- k).
Proof.
  unfold root, sgn. f_equal. rewrite opp_IZR. lra.
Qed.

Lemma root_mul_nat inverse N l (t : nat) :
  (0 < N)%Z → root inverse N (N * Z.of_nat t + l) = root inverse N l.
Proof.
  intros HN. rewrite Z.add_comm. by apply root_period_mul.
Qed.

(** [(1 - w) (1 + w + ... + w^(m-1)) = 1 - w^m] for [w = root inverse N l] *)
Lemma geom_telescope inverse N l (m : nat) :
  cmul (csub cone (root inverse N l))
       (csum m (λ k, root inverse N (k * l)))
  = csub cone (root inverse N (Z.of_nat m * l)).
Proof.
  induction m as [|m IH].
  - simpl. rewrite root_0. apply cplx_eq; simpl; lra.
  - cbn [csum].
    replace (Z.of_nat (S m) * l)%Z with (l + Z.of_nat m * l)%Z by lia.
    rewrite root_add.
    destruct (root inverse N l) as [w1 w2].
    destruct (root inverse N (Z.of_nat m * l)) as [r1 r2].
    destruct (csum m _) as [s1 s2].
    unfold cmul, csub, cadd, cone in *. simpl in *.
    injection IH as H1 H2. f_equal; lra.
Qed.

Lemma root_ne_one inverse N l : (0 < l < N)%Z → root inverse N l ≠ cone.
Proof.
  intros Hl Heq. unfold root, cis, cone in Heq. injection Heq as Hcos Hsin.
  set (x := 2 * PI / IZR N * IZR l) in *.
  assert (0 < IZR l < IZR N) as [Hl0 HlN] by (split; apply IZR_lt; lia).
  pose proof PI_RGT_0 as Hpi.
  assert (0 < x < 2 * PI) as Hx.
  { unfold x. split.
    - apply Rmult_lt_0_compat; [|done].
      apply Rdiv_lt_0_compat; lra.
    - replace (2 * PI / IZR N * IZR l) with (2 * PI * (IZR l / IZR N))
        by (field; lra).
      rewrite <- (Rmult_1_r (2 * PI)) at 2.
      apply Rmult_lt_compat_l; [lra|].
      apply (Rmult_lt_reg_r (IZR N)); [lra|].
      replace (IZR l / IZR N * IZR N) with (IZR l) by (field; lra). lra. }
  assert (cos x = 1 ∧ sin x = 0) as [Hc Hs].
  { destruct inverse; simpl in Hcos, Hsin.
    - replace (1 * (2 * PI / IZR N) * IZR l) with x in * by (unfold x; lra).
      done.
    - replace (-1 * (2 * PI / IZR N) * IZR l) with (- x) in *
        by (unfold x; lra).
      rewrite cos_neg in Hcos. rewrite sin_neg in Hsin. split; lra. }
  destruct (sin_eq_O_2PI_0 x) as [H0|[H1|H2]]; try lra.
  rewrite H1, cos_PI in Hc. lra.
Qed.

Lemma cmul_eq_0 a z : cmul a z = czero → a ≠ czero → z = czero.
Proof.
  destruct a as [a1 a2], z as [z1 z2]. unfold cmul, czero. simpl.
  intros [= H1 H2] Ha.
  assert (0 < a1 * a1 + a2 * a2) as Hpos.
  { destruct (Req_dec a1 0) as [->|H1'].
    - destruct (Req_dec a2 0) as [->|H2']; [done|]. nra.
    - nra. }
  assert ((a1 * a1 + a2 * a2) * z1 = 0) as Hz1.
  { replace ((a1 * a1 + a2 * a2) * z1)
      with (a1 * (a1 * z1 - a2 * z2) + a2 * (a1 * z2 + a2 * z1)) by ring.
    rewrite H1, H2. ring. }
  assert ((a1 * a1 + a2 * a2) * z2 = 0) as Hz2.
  { replace ((a1 * a1 + a2 * a2) * z2)
      with (a1 * (a1 * z2 + a2 * z1) - a2 * (a1 * z1 - a2 * z2)) by ring.
    rewrite H1, H2. ring. }
  apply Rmult_integral in Hz1 as [?|Hz1]; [lra|].
  apply Rmult_integral in Hz2 as [?|Hz2]; [lra|]. by rewrite Hz1, Hz2.
Qed.

(** the sum of the powers of a root of unity that is not 1 *)
Lemma geom_sum_zero inverse N d :
  (0 < N)%Z → (- N < d < N)%Z → d ≠ 0%Z →
  csum (Z.to_nat N) (λ l, root inverse N (l * d)) = czero.
Proof.
  intros HN Hd Hd0.
  assert (∀ e, (0 < e < N)%Z →
            csum (Z.to_nat N) (λ l, root inverse N (l * e)) = czero) as Hpos.
  { intros e He. apply (cmul_eq_0 (csub cone (root inverse N e))).
    - rewrite geom_telescope, Z2Nat.id by lia.
      replace (N * e)%Z with (0 + N * Z.of_nat (Z.to_nat e))%Z by lia.
      rewrite root_period_mul, root_0 by done. apply cplx_eq; simpl; lra.
    - intros Heq. apply (root_ne_one inverse N e He).
      unfold csub, czero, cone in *. destruct (root inverse N e) as [w1 w2].
      simpl in *. injection Heq as H1 H2. f_equal; lra. }
  destruct (decide (0 < d)%Z) as [Hp|Hn]; [apply Hpos; lia|].
  rewrite <- (Hpos (d + N)%Z) by lia.
  apply csum_ext. intros l Hl.
  replace (l * (d + N))%Z with (l * d + N * Z.of_nat (Z.to_nat l))%Z by lia.
  by rewrite root_period_mul.
Qed.

Lemma root_sum inverse N d :
  (0 < N)%Z → (- N < d < N)%Z →
  csum (Z.to_nat N) (λ l, root inverse N (l * d))
  = if decide (d = 0%Z) then creal (IZR N) else czero.
Proof.
  intros HN Hd. case_decide as Hd0.
  - subst d. rewrite (csum_ext _ _ (λ _, cone)).
    + rewrite csum_const, INR_IZR_INZ, Z2Nat.id by lia. apply cmul_1_r.
    + intros l Hl. rewrite Z.mul_0_r. apply root_0.
  - by apply geom_sum_zero.
Qed.

End MoreSums.

(** ** More on the transform in exact arithmetic *)

Lemma len_lincomb a x b y : len x = len y → len (lincomb a x b y) = len x.
Proof.
  unfold len, lincomb. intros Hl. rewrite length_zip_with. lia.
Qed.

Lemma rd_lincomb a x b y i :
  len x = len y → 0 <= i < len x →
  rd (lincomb a x b y) i = (a * rd x i + b * rd y i)%R.
Proof.
  intros Hl Hi. unfold rd at 1. unfold lincomb.
  rewrite lookup_zip_with, (lookup_rd x i), (lookup_rd y i) by lia. done.
Qed.

Lemma smp_lincomb a x b y n s :
  len x = 2 * n → len y = 2 * n → 0 <= s < n →
  smp (lincomb a x b y) s
  = cadd (cmul (creal a) (smp x s)) (cmul (creal b) (smp y s)).
Proof.
  intros Hx Hy Hs. unfold smp.
  rewrite !rd_lincomb by lia. apply cplx_eq; simpl; lra.
Qed.

Lemma dft_lincomb inverse a x b y n l :
  0 <= n → len x = 2 * n → len y = 2 * n →
  dft inverse n (lincomb a x b y) l
  = cadd (cmul (creal a) (dft inverse n x l))
         (cmul (creal b) (dft inverse n y l)).
Proof.
  intros Hn Hx Hy. unfold dft.
  rewrite <- !csum_mul, <- csum_add. apply csum_ext. intros k Hk.
  rewrite (smp_lincomb a x b y n) by lia. apply cplx_eq; simpl; ring.
Qed.

(** X6. The transform is linear, in both directions: on [a x + b y] it
    returns [a X + b Y], where [X] and [Y] are what it returns on [x] and on
    [y]. *)
Theorem transform_linear (fuel : nat) (x y : list R) (a b : R)
    (inverse : bool) (p : nat) :
  (1 <= p)%nat → len x = 2 * pow2 p → len y = 2 * pow2 p →
  2 * pow2 p <= int_max → 2 * pow2 p <= Z.of_nat fuel →
  ∃ X Y,
    FourierTransLL (H := ideal) fuel x inverse = Ok (X, None)
    ∧ FourierTransLL (H := ideal) fuel y inverse = Ok (Y, None)
    ∧ FourierTransLL (H := ideal) fuel (lincomb a x b y) inverse
      = Ok (lincomb a X b Y, None).
Proof.
  intros Hp Hx Hy Hmax Hfuel. pose proof (pow2_pos p) as Hpos.
  assert (len (lincomb a x b y) = 2 * pow2 p) as Hz
    by (rewrite len_lincomb; lia).
  destruct (sections_dft fuel x inverse p)
    as (_ & x2 & x3 & _ & _ & Hrx & Hlx & Hdx & Hfx); [done|done|done|lia|].
  destruct (sections_dft fuel y inverse p)
    as (_ & y2 & y3 & _ & _ & Hry & Hly & Hdy & Hfy); [done|done|done|lia|].
  destruct (sections_dft fuel (lincomb a x b y) inverse p)
    as (_ & z2 & z3 & _ & _ & Hrz & Hlz & Hdz & Hfz); [done|done|done|lia|].
  exists x3, y3. split_and!; [done|done|]. rewrite Hrz. do 2 f_equal.
  assert (z2 = lincomb a x2 b y2) as ->.
  { apply (smp_ext _ _ (pow2 p)); [lia|rewrite len_lincomb; lia|].
    intros s Hs. rewrite (smp_lincomb a x2 b y2 (pow2 p)) by lia.
    rewrite Hdz, Hdx, Hdy by done. apply dft_lincomb; lia. }
  destruct inverse; [|by subst].
  destruct Hfx as [Hlx3 Hx3], Hfy as [Hly3 Hy3], Hfz as [Hlz3 Hz3].
  apply rd_ext; [rewrite len_lincomb; lia|].
  intros i Hi. rewrite Hz3 by lia.
  rewrite !rd_lincomb by lia. rewrite Hx3, Hy3 by lia.
  case_decide; simpl; ring.
Qed.

Lemma transform_linear_witness :
  ∃ X Y,
    FourierTransLL (H := ideal) 4 [1; 2; 3; 4]%R true = Ok (X, None)
    ∧ FourierTransLL (H := ideal) 4 [0; 1; 0; 1]%R true = Ok (Y, None)
    ∧ FourierTransLL (H := ideal) 4
        (lincomb 2 [1; 2; 3; 4]%R 3 [0; 1; 0; 1]%R) true
      = Ok (lincomb 2 X 3 Y, None).
Proof.
  apply (transform_linear 4 [1; 2; 3; 4]%R [0; 1; 0; 1]%R 2 3 true 1).
  - lia.
  - reflexivity.
  - reflexivity.
  - vm_compute. discriminate.
  - vm_compute. discriminate.
Defined.

(** X7. The direct transform of the constant input [1, 0, 1, 0, ..., 1, 0]
    has [X[0] = (n, 0)] and [X[l] = (0, 0)] for every other [l]. *)
Theorem constant_forward (fuel p : nat) :
  (1 <= p)%nat → 2 * pow2 p <= int_max → 2 * pow2 p <= Z.of_nat fuel →
  ∃ X,
    FourierTransLL (H := ideal) fuel (ones (Z.to_nat (pow2 p))) false
      = Ok (X, None)
    ∧ smp X 0 = (IZR (pow2 p), 0%R)
    ∧ ∀ l, 0 < l < pow2 p → smp X l = (0%R, 0%R).
Proof.
  intros Hp Hmax Hfuel. pose proof (pow2_pos p) as Hpos.
  set (n := Z.to_nat (pow2 p)).
  assert (len (ones n) = 2 * pow2 p) as Hlen by (rewrite len_ones; lia).
  destruct (sections_dft fuel (ones n) false p)
    as (_ & d2 & d3 & _ & _ & Hrun & _ & Hdft & ->); [done|done|done|lia|].
  assert (∀ l, 0 <= l < pow2 p →
            smp d2 l = if decide (l = 0) then creal (IZR (pow2 p)) else czero)
    as Hall.
  { intros l Hl. rewrite Hdft by done. unfold dft.
    rewrite <- (root_sum false (pow2 p) l) by lia.
    apply csum_ext. intros k Hk. rewrite smp_ones by lia. apply cmul_1_l. }
  exists d2. split_and!; [done|by rewrite Hall by lia|].
  intros l Hl. rewrite Hall by lia. by rewrite decide_False by lia.
Qed.

Lemma constant_forward_witness :
  ∃ X,
    FourierTransLL (H := ideal) 4 (ones (Z.to_nat (pow2 1))) false
      = Ok (X, None)
    ∧ smp X 0 = (IZR (pow2 1), 0%R).
Proof.
  destruct (constant_forward 4 1) as (X & Hrun & H0 & _).
  - lia.
  - vm_compute. discriminate.
  - vm_compute. discriminate.
  - exists X. split; [exact Hrun|exact H0].
Defined.

(** X8. The first sample of the direct transform is the sum of the samples
    of the input. *)
Theorem forward_first_sample (fuel : nat) (x : list R) (p : nat) :
  (1 <= p)%nat → len x = 2 * pow2 p → 2 * pow2 p <= int_max →
  len x <= Z.of_nat fuel →
  ∃ X,
    FourierTransLL (H := ideal) fuel x false = Ok (X, None)
    ∧ smp X 0 = csum (Z.to_nat (pow2 p)) (λ k, smp x k).
Proof.
  intros Hp Hlen Hmax Hfuel. pose proof (pow2_pos p) as Hpos.
  destruct (sections_dft fuel x false p)
    as (_ & d2 & d3 & _ & _ & Hrun & _ & Hdft & ->); [done..|].
  exists d2. split; [done|]. rewrite Hdft by lia. unfold dft.
  apply csum_ext. intros k Hk. rewrite Z.mul_0_r, root_0. apply cmul_1_r.
Qed.

Lemma forward_first_sample_witness :
  ∃ X,
    FourierTransLL (H := ideal) 4 [1; 2; 3; 4]%R false = Ok (X, None)
    ∧ smp X 0 = csum (Z.to_nat (pow2 1)) (λ k, smp [1; 2; 3; 4]%R k).
Proof.
  apply (forward_first_sample 4 [1; 2; 3; 4]%R 1).
  - lia.
  - reflexivity.
  - vm_compute. discriminate.
  - vm_compute. discriminate.
Defined.

(** the sum with the exponent [+] of the sums with the exponent [-] *)
Lemma dft_inverse_dft n (x X : list R) m :
  0 < n → 0 <= m < n →
  (∀ l, 0 <= l < n → smp X l = dft false n x l) →
  dft true n X m = cmul (creal (IZR n)) (smp x m).
Proof.
  intros Hn Hm HX. unfold dft at 1.
  rewrite (csum_ext _ _
             (λ l, csum (Z.to_nat n)
                     (λ k, cmul (smp x k) (root true n (l * (m - k)))))).
  - rewrite csum_swap.
    rewrite (csum_ext _ _
               (λ k, cmul (smp x k)
                       (if decide (m - k = 0) then creal (IZR n) else czero))).
    + rewrite (csum_single _ _ m) by
        (try lia; intros t Ht Hne; rewrite decide_False by lia;
         apply cmul_0_r).
      rewrite decide_True by lia. apply cmul_comm.
    + intros k Hk. rewrite csum_mul, root_sum by lia. done.
  - intros l Hl. rewrite HX by lia. unfold dft.
    rewrite <- csum_mul_r. apply csum_ext. intros k Hk.
    rewrite cmul_assoc. f_equal.
    rewrite root_false_true, <- root_add. f_equal. lia.
Qed.

Lemma smp_fmap (f : R → R) (x : list R) s :
  0 <= s → 2 * s + 1 < len x →
  smp (f <$> x) s = (f (rd x (2 * s)), f (rd x (2 * s + 1))).
Proof.
  intros Hs Hl. unfold smp, rd at 1 2.
  rewrite !list_lookup_fmap, !lookup_rd by lia. done.
Qed.

(** the entries of the sum with [+] of the sums with [-] *)
Lemma rd_inverse_dft n (x X Y : list R) i :
  0 < n → 0 <= i < 2 * n →
  (∀ l, 0 <= l < n → smp X l = dft false n x l) →
  (∀ l, 0 <= l < n → smp Y l = dft true n X l) →
  rd Y i = (IZR n * rd x i)%R.
Proof.
  intros Hn Hi HX HY.
  pose proof (Z.div_mod i 2 ltac:(lia)) as Hdm.
  pose proof (Z.mod_pos_bound i 2 ltac:(lia)) as Hm.
  pose proof (HY (i / 2) ltac:(lia)) as Hs.
  rewrite (dft_inverse_dft n x X (i / 2)) in Hs by (done || lia).
  unfold smp, cmul, creal in Hs. simpl in Hs. injection Hs as Hre Him.
  assert (i mod 2 = 0 ∨ i mod 2 = 1) as [H0|H1] by lia.
  - replace i with (2 * (i / 2)) by lia. rewrite Hre. lra.
  - replace i with (2 * (i / 2) + 1) by lia. rewrite Him. lra.
Qed.

(** X9. The two sections of the inverse transform undo the direct
    transform up to the factor [n]: run on the result of the direct
    transform of [x], they leave [n x]. *)
Theorem sections_round_trip (fuel : nat) (x : list R) (p : nat) :
  (1 <= p)%nat → len x = 2 * pow2 p → 2 * pow2 p <= int_max →
  len x <= Z.of_nat fuel →
  ∃ X d1,
    FourierTransLL (H := ideal) fuel x false = Ok (X, None)
    ∧ bit_reversal fuel (pow2 p) (2 * pow2 p) X = Ok d1
    ∧ danielson_lanczos (H := ideal) fuel true (2 * pow2 p) d1
      = Ok ((λ v, IZR (pow2 p) * v)%R <$> x).
Proof.
  intros Hp Hlen Hmax Hfuel. pose proof (pow2_pos p) as Hpos.
  destruct (sections_dft fuel x false p)
    as (_ & X & d3 & _ & _ & Hrun & HlX & HdX & ->); [done..|].
  destruct (sections_dft fuel X true p)
    as (d1 & Y & Z & Hr1 & Hr2 & _ & HlY & HdY & _); [done|lia|done|lia|].
  exists X, d1. split_and!; [done|done|]. rewrite Hr2. f_equal.
  apply rd_ext; [unfold len in *; rewrite length_fmap; lia|].
  intros i Hi.
  rewrite (rd_inverse_dft (pow2 p) x X Y i) by (done || lia).
  unfold rd at 2. rewrite list_lookup_fmap, lookup_rd by lia. done.
Qed.

Lemma sections_round_trip_witness :
  ∃ X d1,
    FourierTransLL (H := ideal) 4 [1; 2; 3; 4]%R false = Ok (X, None)
    ∧ bit_reversal 4 (pow2 1) (2 * pow2 1) X = Ok d1
    ∧ danielson_lanczos (H := ideal) 4 true (2 * pow2 1) d1
      = Ok ((λ v, IZR (pow2 1) * v)%R <$> [1; 2; 3; 4]%R).
Proof.
  apply (sections_round_trip 4 [1; 2; 3; 4]%R 1).
  - lia.
  - reflexivity.
  - vm_compute. discriminate.
  - vm_compute. discriminate.
Defined.

(** X10. The inverse call on the result of the direct call on [x] returns
    [n * n * x[i]] in the entries [i < n] and [n * x[i]] in the entries
    [n <= i < 2 n]. *)
Theorem round_trip_factors (fuel : nat) (x : list R) (p : nat) :
  (1 <= p)%nat → len x = 2 * pow2 p → 2 * pow2 p <= int_max →
  len x <= Z.of_nat fuel →
  ∃ X Z,
    FourierTransLL (H := ideal) fuel x false = Ok (X, None)
    ∧ FourierTransLL (H := ideal) fuel X true = Ok (Z, None)
    ∧ ∀ (i : nat) v, x !! i = Some v →
        Z !! i = Some (if decide (Z.of_nat i < pow2 p)
                       then (IZR (pow2 p) * IZR (pow2 p) * v)%R
                       else (IZR (pow2 p) * v)%R).
Proof.
  intros Hp Hlen Hmax Hfuel. pose proof (pow2_pos p) as Hpos.
  destruct (sections_dft fuel x false p)
    as (_ & X & d3 & _ & _ & Hrun & HlX & HdX & ->); [done..|].
  destruct (sections_dft fuel X true p)
    as (d1 & Y & Z & _ & _ & HrunZ & HlY & HdY & HlZ & HZ);
    [done|lia|done|lia|].
  exists X, Z. split_and!; [done|done|].
  intros i v Hv. pose proof (lookup_lt_Some _ _ _ Hv) as Hi.
  pose proof (lookup_rd Z (Z.of_nat i) ltac:(unfold len in *; lia)) as HZi.
  pose proof (lookup_rd x (Z.of_nat i) ltac:(unfold len in *; lia)) as Hxi.
  rewrite Nat2Z.id in HZi, Hxi. rewrite Hv in Hxi. injection Hxi as ->.
  rewrite HZi, HZ by (unfold len in *; lia). f_equal.
  rewrite (rd_inverse_dft (pow2 p) x X Y (Z.of_nat i))
    by (done || unfold len in *; lia).
  case_decide; simpl; lra.
Qed.

Lemma round_trip_factors_witness :
  ∃ X Z,
    FourierTransLL (H := ideal) 4 [1; 2; 3; 4]%R false = Ok (X, None)
    ∧ FourierTransLL (H := ideal) 4 X true = Ok (Z, None)
    ∧ Z !! 0%nat = Some (IZR (pow2 1) * IZR (pow2 1) * 1)%R
    ∧ Z !! 3%nat = Some (IZR (pow2 1) * 4)%R.
Proof.
  destruct (round_trip_factors 4 [1; 2; 3; 4]%R 1) as (X & Z & H1 & H2 & H3).
  - lia.
  - reflexivity.
  - vm_compute. discriminate.
  - vm_compute. discriminate.
  - exists X, Z. split; [exact H1|]. split; [exact H2|]. split.
    + exact (H3 0%nat 1%R eq_refl).
    + exact (H3 3%nat 4%R eq_refl).
Defined.

(** X11. The two sections of the inverse transform give the direct
    transform read backwards: [Y[0] = X[0]] and [Y[l] = X[n - l]]. *)
Theorem inverse_sections_reverse (fuel : nat) (x : list R) (p : nat) :
  (1 <= p)%nat → len x = 2 * pow2 p → 2 * pow2 p <= int_max →
  len x <= Z.of_nat fuel →
  ∃ X d1 Y,
    FourierTransLL (H := ideal) fuel x false = Ok (X, None)
    ∧ bit_reversal fuel (pow2 p) (2 * pow2 p) x = Ok d1
    ∧ danielson_lanczos (H := ideal) fuel true (2 * pow2 p) d1 = Ok Y
    ∧ smp Y 0 = smp X 0
    ∧ ∀ l, 0 < l < pow2 p → smp Y l = smp X (pow2 p - l).
Proof.
  intros Hp Hlen Hmax Hfuel. pose proof (pow2_pos p) as Hpos.
  destruct (sections_dft fuel x false p)
    as (_ & X & d3 & _ & _ & Hrun & _ & HdX & ->); [done..|].
  destruct (sections_dft fuel x true p)
    as (d1 & Y & Z & Hr1 & Hr2 & _ & _ & HdY & _); [done..|].
  exists X, d1, Y. split_and!; [done|done|done|..].
  - rewrite HdY, HdX by lia. unfold dft. apply csum_ext. intros k Hk.
    by rewrite Z.mul_0_r, !root_0.
  - intros l Hl. rewrite HdY, HdX by lia. unfold dft.
    apply csum_ext. intros k Hk. f_equal.
    replace (k * (pow2 p - l))
      with (- (k * l) + pow2 p * Z.of_nat (Z.to_nat k)) by lia.
    rewrite root_period_mul, root_false_true by done. f_equal. lia.
Qed.

Lemma inverse_sections_reverse_witness :
  ∃ X d1 Y,
    FourierTransLL (H := ideal) 8 [1; 2; 3; 4; 5; 6; 7; 8]%R false = Ok (X, None)
    ∧ bit_reversal 8 (pow2 2) (2 * pow2 2) [1; 2; 3; 4; 5; 6; 7; 8]%R = Ok d1
    ∧ danielson_lanczos (H := ideal) 8 true (2 * pow2 2) d1 = Ok Y
    ∧ smp Y 0 = smp X 0
    ∧ ∀ l, 0 < l < pow2 2 → smp Y l = smp X (pow2 2 - l).
Proof.
  apply (inverse_sections_reverse 8 [1; 2; 3; 4; 5; 6; 7; 8]%R 2).
  - lia.
  - reflexivity.
  - vm_compute. discriminate.
  - vm_compute. discriminate.
Defined.

Lemma len_impulse_at n m : len (impulse_at n m) = 2 * Z.of_nat n.
Proof.
  unfold len, impulse_at. rewrite length_insert, length_replicate. lia.
Qed.

Lemma smp_impulse_at n m k :
  (m < n)%nat → 0 <= k < Z.of_nat n →
  smp (impulse_at n m) k = if decide (k = Z.of_nat m) then cone else czero.
Proof.
  intros Hm Hk. unfold smp, rd, impulse_at.
  destruct (decide (k = Z.of_nat m)) as [->|Hne].
  - replace (Z.to_nat (2 * Z.of_nat m)) with (2 * m)%nat by lia.
    rewrite list_lookup_insert_eq by (rewrite length_replicate; lia).
    rewrite list_lookup_insert_ne by lia.
    rewrite lookup_replicate_2 by lia. done.
  - rewrite !list_lookup_insert_ne by lia.
    rewrite !lookup_replicate_2 by lia. done.
Qed.

(** X12. The direct transform of the impulse at the sample [m] is
    [X[l] = e^{-i 2π m l / n}]. *)
Theorem impulse_at_forward (fuel p m : nat) :
  (1 <= p)%nat → 2 * pow2 p <= int_max → 2 * pow2 p <= Z.of_nat fuel →
  Z.of_nat m < pow2 p →
  ∃ X,
    FourierTransLL (H := ideal) fuel (impulse_at (Z.to_nat (pow2 p)) m) false
      = Ok (X, None)
    ∧ ∀ l, 0 <= l < pow2 p →
        smp X l = cis (- (2 * PI * IZR (Z.of_nat m * l) / IZR (pow2 p)))%R.
Proof.
  intros Hp Hmax Hfuel Hm. pose proof (pow2_pos p) as Hpos.
  set (n := Z.to_nat (pow2 p)).
  assert (len (impulse_at n m) = 2 * pow2 p) as Hlen
    by (rewrite len_impulse_at; lia).
  destruct (sections_dft fuel (impulse_at n m) false p)
    as (_ & d2 & d3 & _ & _ & Hrun & _ & Hdft & ->); [done|done|done|lia|].
  exists d2. split; [done|]. intros l Hl. rewrite Hdft by done. unfold dft.
  fold n. rewrite (csum_single _ _ (Z.of_nat m)).
  - rewrite smp_impulse_at, decide_True, cmul_1_l by lia.
    rewrite root_cis. f_equal. unfold sgn. lra.
  - lia.
  - intros t Ht Hne. rewrite smp_impulse_at, decide_False by lia.
    apply cmul_0_l.
Qed.

Lemma impulse_at_forward_witness :
  ∃ X,
    FourierTransLL (H := ideal) 8 (impulse_at (Z.to_nat (pow2 2)) 1) false
      = Ok (X, None)
    ∧ ∀ l, 0 <= l < pow2 2 →
        smp X l = cis (- (2 * PI * IZR (Z.of_nat 1 * l) / IZR (pow2 2)))%R.
Proof.
  apply (impulse_at_forward 8 2 1).
  - lia.
  - vm_compute. discriminate.
  - vm_compute. discriminate.
  - vm_compute. reflexivity.
Defined.

(** X13. The trigonometric recurrence is exact: on entry to the turn
    number [k] of the middle loop of a stage, [(wr, wi)] is
    [(cos (k theta), sin (k theta))], and [m = 2 k + 1]. *)
Theorem rotation_factors (fuel : nat) (inverse : bool) (h nb : Z)
    (d0 : list R) (k : nat) :
  0 < h → 0 < nb → 4 * h * nb <= 2 ^ 62 → len d0 = 4 * h * nb →
  nb < Z.of_nat fuel → Z.of_nat k <= h →
  ∃ dk,
    repeat_body k
      (middle_body (H := ideal) fuel (4 * h * nb) (2 * h) (4 * h)
         (wpr inverse (2 * h)) (wpi inverse (2 * h)))
      (d0, 1, 1%R, 0%R)
    = Ok (dk, 2 * Z.of_nat k + 1,
          cos (IZR (Z.of_nat k) * theta (H := ideal) inverse (2 * h)),
          sin (IZR (Z.of_nat k) * theta (H := ideal) inverse (2 * h))).
Proof.
  intros Hh Hnb Hmax Hlen Hfuel Hk.
  destruct (loop_counted_prefix (middle_cond (2 * h))
              (middle_body (H := ideal) fuel (4 * h * nb) (2 * h) (4 * h)
                 (wpr inverse (2 * h)) (wpi inverse (2 * h)))
              (middle_inv (H := ideal) inverse h nb d0) (Z.to_nat h)
              (d0, 1, 1%R, 0%R)) with (k := k)
    as ([[[dk m] wr] wi] & Hrep & -> & Hw & _).
  - unfold middle_inv. split_and!; try done.
    intros o' blk b1 c Ho' Hblk Hb1 Hc. rewrite decide_False by lia. done.
  - intros j s Hj Hinv.
    apply (middle_body_inv fuel inverse h nb d0 j s); try done. lia.
  - lia.
  - exists dk. rewrite Hrep. rewrite twiddle_ideal in Hw.
    unfold root, cis in Hw. rewrite theta_ideal. injection Hw as -> ->.
    by rewrite !(Rmult_comm (IZR (Z.of_nat k))).
Qed.

Lemma rotation_factors_witness :
  ∃ dk,
    repeat_body 1
      (middle_body (H := ideal) 4 (4 * 1 * 1) (2 * 1) (4 * 1)
         (wpr true (2 * 1)) (wpi true (2 * 1)))
      ([1; 2; 3; 4]%R, 1, 1%R, 0%R)
    = Ok (dk, 2 * Z.of_nat 1 + 1,
          cos (IZR (Z.of_nat 1) * theta (H := ideal) true (2 * 1)),
          sin (IZR (Z.of_nat 1) * theta (H := ideal) true (2 * 1))).
Proof.
  apply (rotation_factors 4 true 1 1 [1; 2; 3; 4]%R 1).
  - lia.
  - lia.
  - vm_compute. discriminate.
  - reflexivity.
  - vm_compute. reflexivity.
  - vm_compute. discriminate.
Defined.

(** X14. The stage number [q] of a transform of [n = 2^p] samples goes
    through its middle loop [2^q] times, and in each of these turns through
    its inner loop [2^(p-1-q)] times: [n / 2] butterflies in every stage. *)
Theorem stage_butterflies {F : Type} `{Float64 F}
    (fuel : nat) (inverse : bool) (p q : nat) (d : list F) :
  (q < p)%nat → len d = 2 * pow2 p → 2 * pow2 p <= int_max →
  pow2 p <= Z.of_nat fuel →
  let mmax := 2 * pow2 q in
  let middle :=
    middle_body fuel (2 * pow2 p) mmax (2 * mmax)
      (wpr inverse mmax) (wpi inverse mmax) in
  (∃ s, loop_runs (middle_cond mmax) middle (d, 1, float64 1, float64 0)
          (Z.to_nat (pow2 q)) s)
  ∧ ∀ k, (k < Z.to_nat (pow2 q))%nat →
      ∃ dk wr wi s,
        repeat_body k middle (d, 1, float64 1, float64 0)
        = Ok (dk, 2 * Z.of_nat k + 1, wr, wi)
        ∧ loop_runs (inner_cond (2 * pow2 p)) (inner_body mmax (2 * mmax) wr wi)
            (dk, 2 * Z.of_nat k + 1) (Z.to_nat (pow2 (p - 1 - q))) s.
Proof.
  intros Hq Hlen Hmax Hfuel. cbv zeta.
  pose proof (pow2_int_max p Hmax) as Hmax'.
  pose proof (pow2_split p q Hq) as Hsplit.
  pose proof (pow2_pos q) as Hh. pose proof (pow2_pos (p - 1 - q)) as Hnb.
  set (h := pow2 q) in *. set (nb := pow2 (p - 1 - q)) in *.
  assert (4 * h * nb = 2 * pow2 p) as Hnn by lia.
  assert (h < 2 * h * nb ∧ nb < 2 * h * nb) as [Hh' Hnb'] by nia.
  rewrite <- Hnn. replace (2 * (2 * h)) with (4 * h) by lia.
  split.
  - destruct (middle_loop_runs fuel inverse h nb d)
      as (data' & m & wr & wi & Hrun & _); [lia..|]. eauto.
  - intros k Hk.
    destruct (loop_counted_prefix (middle_cond (2 * h))
                (middle_body fuel (4 * h * nb) (2 * h) (4 * h)
                   (wpr inverse (2 * h)) (wpi inverse (2 * h)))
                (middle_inv inverse h nb d) (Z.to_nat h)
                (d, 1, float64 1, float64 0)) with (k := k)
      as ([[[dk m] wr] wi] & Hrep & -> & _ & Hl & _).
    + unfold middle_inv. split_and!; try done.
      intros o' blk b1 c Ho' Hblk Hb1 Hc. rewrite decide_False by lia. done.
    + intros j s Hj Hinv.
      apply (middle_body_inv fuel inverse h nb d j s); try done; lia.
    + lia.
    + destruct (inner_loop_runs h nb (Z.of_nat k) wr wi dk)
        as (data' & i & Hrun & _); [lia..|].
      exists dk, wr, wi, (data', i). split; [done|].
      replace (2 * Z.of_nat k + 1) with (2 * Z.of_nat k + 1) by lia. done.
Qed.

Lemma stage_butterflies_witness :
  ∃ s, loop_runs (middle_cond (2 * pow2 1))
         (middle_body (H := ideal) 8 (2 * pow2 2) (2 * pow2 1)
            (2 * (2 * pow2 1)) (wpr false (2 * pow2 1)) (wpi false (2 * pow2 1)))
         ([1; 2; 3; 4; 5; 6; 7; 8]%R, 1, 1%R, 0%R) (Z.to_nat (pow2 1)) s.
Proof.
  destruct (stage_butterflies (H := ideal) 8 false 2 1
              [1; 2; 3; 4; 5; 6; 7; 8]%R) as [Hmid _].
  - lia.
  - reflexivity.
  - vm_compute. discriminate.
  - vm_compute. discriminate.
  - exact Hmid.
Defined.

(** X15. The bit-reversal section goes through its loop [n] times; on entry
    to the turn number [t] the index [i] is [2 t + 1] and [j] is
    [2 r + 1], where [r] is [t] with its [log2 n] bits reversed, and the
    carry loop of that turn ends within [log2 n] turns. *)
Theorem bit_reversal_turns {F : Type} `{Float64 F}
    (fuel : nat) (data : list F) (p : nat) :
  (1 <= p)%nat → len data = 2 * pow2 p → 2 * pow2 p <= int_max →
  (p < fuel)%nat →
  (∃ s, loop_runs (bitrev_cond (2 * pow2 p)) (bitrev_body fuel (pow2 p))
          (data, 1, 1) (Z.to_nat (pow2 p)) s)
  ∧ ∀ t, (t < Z.to_nat (pow2 p))%nat →
      ∃ dt k s,
        repeat_body t (bitrev_body fuel (pow2 p)) (data, 1, 1)
        = Ok (dt, 2 * bitrev p (Z.of_nat t) + 1, 2 * Z.of_nat t + 1)
        ∧ loop_runs carry_cond carry_body
            (2 * bitrev p (Z.of_nat t) + 1, pow2 p) k s
        ∧ (k <= p)%nat.
Proof.
  intros Hp Hlen Hmax Hfuel. pose proof (pow2_pos p) as Hpos. split.
  - destruct (bit_reversal_runs fuel p data) as (d & j & i & Hrun & _);
      [done..|]. eauto.
  - intros t Ht.
    destruct (loop_counted_prefix (bitrev_cond (2 * pow2 p))
                (bitrev_body fuel (pow2 p)) (bitrev_inv p data)
                (Z.to_nat (pow2 p)) (data, 1, 1)) with (k := t)
      as ([[dt j] i] & Hrep & -> & Hj & _).
    + unfold bitrev_inv. split_and!; try done.
      * intros _. by rewrite bitrev_0.
      * intros s c Hs Hc. unfold bitrev_src. change (Z.of_nat 0) with 0.
        destruct (Z.ltb_spec s 0); [lia|].
        pose proof (bitrev_bound p s).
        destruct (Z.ltb_spec (bitrev p s) 0); [lia|]. done.
    + intros k s Hk Hinv.
      apply (bitrev_body_ok fuel p data k s); try done. lia.
    + lia.
    + rewrite Hj in Hrep by lia.
      destruct (carry_loop_runs p (bitrev p (Z.of_nat t)))
        as (k & j' & m' & Hrun & Hk & _); [apply bitrev_bound|done|].
      exists dt, k, (j', m'). done.
Qed.

Lemma bit_reversal_turns_witness :
  ∃ s, loop_runs (bitrev_cond (2 * pow2 2)) (bitrev_body 8 (pow2 2))
         ([1; 2; 3; 4; 5; 6; 7; 8]%R, 1, 1) (Z.to_nat (pow2 2)) s.
Proof.
  destruct (bit_reversal_turns (H := ideal) 8 [1; 2; 3; 4; 5; 6; 7; 8]%R 2)
    as [Hrun _].
  - lia.
  - reflexivity.
  - vm_compute. discriminate.
  - lia.
  - exact Hrun.
Defined.

(** X16. Parseval: the squared moduli of the direct transform add up to
    [n] times those of the input. *)
Theorem forward_energy (fuel : nat) (x : list R) (p : nat) :
  (1 <= p)%nat → len x = 2 * pow2 p → 2 * pow2 p <= int_max →
  len x <= Z.of_nat fuel →
  ∃ X,
    FourierTransLL (H := ideal) fuel x false = Ok (X, None)
    ∧ csum (Z.to_nat (pow2 p)) (λ l, cmul (smp X l) (cconj (smp X l)))
      = cmul (creal (IZR (pow2 p)))
          (csum (Z.to_nat (pow2 p)) (λ k, cmul (smp x k) (cconj (smp x k)))).
Proof.
  intros Hp Hlen Hmax Hfuel. pose proof (pow2_pos p) as Hpos.
  destruct (sections_dft fuel x false p)
    as (_ & X & d3 & _ & _ & Hrun & _ & HdX & ->); [done..|].
  exists X. split; [done|].
  set (N := Z.to_nat (pow2 p)).
  (* n |x[m]|^2 = conj x[m] * sum_l X[l] w^(l m) *)
  rewrite <- csum_mul.
  rewrite (csum_ext N (λ k, cmul (creal (IZR (pow2 p))) _)
             (λ m, csum N (λ l, cmul (cmul (smp X l)
                                        (root true (pow2 p) (l * m)))
                                  (cconj (smp x m))))).
  2:{ intros m Hm. rewrite csum_mul_r.
      change (csum N (λ t, cmul (smp X t) (root true (pow2 p) (t * m))))
        with (dft true (pow2 p) X m).
      rewrite (dft_inverse_dft (pow2 p) x X m) by (done || lia).
      apply cplx_eq; simpl; ring. }
  rewrite csum_swap. apply csum_ext. intros l Hl.
  rewrite (csum_ext N _
             (λ m, cmul (smp X l)
                     (cconj (cmul (smp x m) (root false (pow2 p) (m * l)))))).
  2:{ intros m Hm. rewrite cmul_assoc. f_equal.
      rewrite root_false_true, root_neg.
      replace (l * m) with (m * l) by lia.
      apply cplx_eq; simpl; ring. }
  rewrite csum_mul, csum_conj. f_equal. by rewrite HdX by lia.
Qed.

Lemma forward_energy_witness :
  ∃ X,
    FourierTransLL (H := ideal) 4 [1; 2; 3; 4]%R false = Ok (X, None)
    ∧ csum (Z.to_nat (pow2 1)) (λ l, cmul (smp X l) (cconj (smp X l)))
      = cmul (creal (IZR (pow2 1)))
          (csum (Z.to_nat (pow2 1))
             (λ k, cmul (smp [1; 2; 3; 4]%R k) (cconj (smp [1; 2; 3; 4]%R k)))).
Proof.
  apply (forward_energy 4 [1; 2; 3; 4]%R 1).
  - lia.
  - reflexivity.
  - vm_compute. discriminate.
  - vm_compute. discriminate.
Defined.
